(** * CleanArchCpp: the type-erasure wrappers

    A shallow embedding of the polymorphic value containers of

    - [src/cpp/dp_type_erasure.cpp] ([Drawable] and its [Concept]/[Model]
      pair behind a [std::unique_ptr], the shapes, the driver),
    - [src/pattern/dp_type_erasure.cpp] (the same classes without their copy
      operations and without [clone]), and
    - [src/pattern/dp_type_erasure_optimized.cpp] ([BadTypeEraser],
      [ModernTypeEraser], [AnyTypeEraser], [OperationWrapper],
      [TypeErasureContainer], [FunctionTypeEraser], the example types),

    followed by the properties the specification states about them.

    Conventions.  Objects that C++ reaches through a pointer or a reference
    live in a [store] and are named by their address; objects held by value
    are Rocq values.  A member function that writes to [std::cout] returns
    the tokens it inserts.  Undefined behaviour is a result of its own
    ([Undefined], and [None] for an [int] out of range), never a value.

    [Callable] and [Serializable] of the first two files repeat the text of
    [Drawable] with [call] and [serialize] in place of [draw]; [Callable] is
    given as far as its driver and its copies need, [Serializable] is not
    given separately. *)

From Stdlib Require Import ZArith Ascii String List Lia.
From Stdlib Require Import Floats.PrimFloat.
From stdpp Require Import base option list gmap strings pretty.

Open Scope string_scope.
Open Scope list_scope.
Open Scope Z_scope.

(* ===================================================================== *)
(** * Common ground: the console, [int], results                          *)
(* ===================================================================== *)

(** What a chain [std::cout << a << b << std::endl] inserts, operand by
    operand.  The text a [double] or an [int] is formatted to is the stream's
    business and is left to it. *)
Inductive token : Type :=
| Str (s : string)
| Dbl (d : float)
| Int (z : Z)
| Endl.

Definition output : Type := list token.

(** [int] is a 32-bit signed integer; an arithmetic result outside its range
    is undefined behaviour, which [None] stands for. *)
Definition int : Type := Z.
Definition INT_MIN : Z := - 2 ^ 31.
Definition INT_MAX : Z := 2 ^ 31 - 1.

Definition in_int (z : Z) : bool := (INT_MIN <=? z) && (z <=? INT_MAX).

Definition int_mul (a b : int) : option int :=
  if in_int (a * b) then Some (a * b) else None.

Definition int_add (a b : int) : option int :=
  if in_int (a + b) then Some (a + b) else None.

(** The outcome of running a piece of the program: a value, undefined
    behaviour (a null or dangling pointer dereferenced), or the recursion
    budget of the model exhausted. *)
Inductive result (A : Type) : Type :=
| Ok (a : A)
| Undefined
| OutOfFuel.

Arguments Ok {A} a.
Arguments Undefined {A}.
Arguments OutOfFuel {A}.

(* ===================================================================== *)
(** * src/cpp/dp_type_erasure.cpp and src/pattern/dp_type_erasure.cpp     *)
(* ===================================================================== *)

(** The two files declare the same [Drawable], [Callable] and shapes.  They
    differ in one point.  In [src/cpp/dp_type_erasure.cpp] the wrappers can
    be copied, through a virtual [clone] of the model (lines 16-20, 33 and
    44-46).  In [src/pattern/dp_type_erasure.cpp] the copy operations are
    deleted (lines 17-18) and the model has no [clone].

    The difference decides which models exist.  [Model<T>::clone] is
    [std::make_unique<Model<T>>(object)], and the only constructor of
    [Model<T>] takes a [T&&]: for an object type [T] the const member
    [object] cannot be passed to it, and since [clone] is virtual it is
    instantiated with the class.  So in [src/cpp/dp_type_erasure.cpp] a
    [Model<T>] for an object type [T] is ill-formed, no wrapper can be made
    from a temporary, and the models there are the [Model<T&>] the
    constructor template makes from an lvalue, for which [clone] is
    well-formed.  In [src/pattern/dp_type_erasure.cpp] both kinds of model
    are well-formed. *)

(** The capability set of [Drawable]: a member [void draw() const]. *)
Class Draw (T : Type) : Type := draw_ : T -> output.

(** ** Concrete types that do not inherit from a common base *)

Record Circle : Type := { Circle_radius : float }.

Definition Circle_draw (c : Circle) : output :=
  [Str "Drawing circle with radius: "; Dbl (Circle_radius c); Endl].

Record Rectangle : Type :=
  { Rectangle_width : float; Rectangle_height : float }.

Definition Rectangle_draw (r : Rectangle) : output :=
  [Str "Drawing rectangle: "; Dbl (Rectangle_width r); Str "x";
   Dbl (Rectangle_height r); Endl].

Record Triangle : Type :=
  { Triangle_base : float; Triangle_height : float }.

Definition Triangle_draw (t : Triangle) : output :=
  [Str "Drawing triangle: base="; Dbl (Triangle_base t); Str ", height=";
   Dbl (Triangle_height t); Endl].

#[export] Instance Circle_Draw : Draw Circle := Circle_draw.
#[export] Instance Rectangle_Draw : Draw Rectangle := Rectangle_draw.
#[export] Instance Triangle_Draw : Draw Triangle := Triangle_draw.

(** ** The store *)

Definition addr : Type := nat.

(** A [Drawable] object is its one data member, [std::unique_ptr<Concept>
    pImpl]; [None] is the null pointer. *)
Record Drawable : Type := { pImpl : option addr }.

(** What an address holds.

    - [Plain]: an object of a concrete type with a [draw()] member (a local
      such as [Circle c]).
    - [Wrapped]: a [Drawable] object that has a name (a local such as
      [original]).
    - [Model]: a [Drawable::Model<T>] made by [std::make_unique], for an
      object type [T]; its member [T object] is held by value.  These are
      models of [src/pattern/dp_type_erasure.cpp] only.
    - [ModelRef]: a [Drawable::Model<T&>], in either file.  The constructor template
      [Drawable(T&& obj)] deduces [T] as an lvalue reference type when its
      argument is an lvalue, and the member [T object] of [Model<T>] is then
      a reference bound to that argument: the model holds the argument's
      address, not a value. *)
Inductive object : Type :=
| Plain (T : Type) (D : Draw T) (v : T)
| Wrapped (d : Drawable)
| Model (T : Type) (D : Draw T) (obj : T)
| ModelRef (target : addr).

Abbreviation store := (gmap addr object).

(** [new]: an address nothing lives at. *)
Definition fresh_addr (σ : store) : addr := fresh (dom σ).

(** Code that reads and writes a store and may be undefined. *)
Definition St (Σ A : Type) : Type := Σ -> result (A * Σ).

Definition ret {Σ A : Type} (a : A) : St Σ A := fun σ => Ok (a, σ).

Definition bind {Σ A B : Type} (m : St Σ A) (k : A -> St Σ B) : St Σ B :=
  fun σ =>
    match m σ with
    | Ok (a, σ') => k a σ'
    | Undefined => Undefined
    | OutOfFuel => OutOfFuel
    end.

Abbreviation M := (St store).

(** What a run returns, the store left aside. *)
Definition outcome {Σ A : Type} (r : result (A * Σ)) : result A :=
  match r with
  | Ok (a, _) => Ok a
  | Undefined => Undefined
  | OutOfFuel => OutOfFuel
  end.

Notation "'let*' x := m 'in' k" := (bind m (fun x => k))
  (at level 10, x name, m at level 200, k at level 200).

(** A declaration [X name = ...;] of a local: the object gets an address. *)
Definition declare (o : object) : M addr :=
  fun σ => let a := fresh_addr σ in Ok (a, <[a := o]> σ).

(** ** [Drawable] *)

(** [template<typename T> Drawable(T&& obj)] of
    [src/pattern/dp_type_erasure.cpp] (lines 13-14, with [Model] of lines
    33-42) called with an rvalue of an object type [T]:
    [std::make_unique<Model<T>>(std::forward<T>(obj))] move-constructs
    [Model<T>::object] from the argument.  The constructor template of
    [src/cpp/dp_type_erasure.cpp] has the same text, but this call of it does
    not compile there: it needs [Model<T>] for an object type. *)
Definition Drawable_of_rvalue {T : Type} `{D : Draw T} (obj : T) : M Drawable :=
  fun σ =>
    let p := fresh_addr σ in
    Ok ({| pImpl := Some p |}, <[p := Model T D obj]> σ).

(** The constructor template, of either file, called with an lvalue, the
    object at [obj]: [T] is deduced as a reference type and
    [Model<T>::object] is bound to the argument.  A non-const lvalue of type
    [Drawable] comes here too: for it the template is a better match than
    [Drawable(const Drawable&)]. *)
Definition Drawable_of_lvalue (obj : addr) : M Drawable :=
  fun σ =>
    let p := fresh_addr σ in
    Ok ({| pImpl := Some p |}, <[p := ModelRef obj]> σ).

(** [Concept::clone] of [src/cpp/dp_type_erasure.cpp], the virtual call:
    [Model<T>::clone] is [std::make_unique<Model<T>>(object)].  For a
    reference type it is a new model bound to the same referent; these are
    the clones a program of that file makes.  For an object type [T] the
    branch gives the new model over a copy of [object] that the text asks
    for; no program reaches it, since the file that has [clone] has no
    [Model<T>] for an object type, and the file that has such models has no
    [clone]. *)
Definition Concept_clone (p : addr) : M addr :=
  fun σ =>
    match σ !! p with
    | Some (Model T D obj) =>
        let q := fresh_addr σ in Ok (q, <[q := Model T D obj]> σ)
    | Some (ModelRef target) =>
        let q := fresh_addr σ in Ok (q, <[q := ModelRef target]> σ)
    | _ => Undefined
    end.

(** [Drawable(const Drawable& other) : pImpl(other.pImpl->clone())], of
    [src/cpp/dp_type_erasure.cpp]. *)
Definition Drawable_copy (other : Drawable) : M Drawable :=
  match pImpl other with
  | Some p => let* q := Concept_clone p in ret {| pImpl := Some q |}
  | None => fun _ => Undefined
  end.

(** [operator=(const Drawable& other)]: [pImpl = other.pImpl->clone()]; the
    model [pImpl] owned before is deleted by the [unique_ptr] assignment. *)
Definition Drawable_copy_assign (this other : Drawable) : M Drawable :=
  match pImpl other with
  | Some p =>
      let* q := Concept_clone p in
      fun σ =>
        Ok ({| pImpl := Some q |},
            match pImpl this with Some old => delete old σ | None => σ end)
  | None => fun _ => Undefined
  end.

(** [Drawable(Drawable&&) = default]: the [unique_ptr] is moved; the pair is
    the new object and what is left of the source. *)
Definition Drawable_move (other : Drawable) : Drawable * Drawable :=
  ({| pImpl := pImpl other |}, {| pImpl := None |}).

(** [Drawable moved = std::move(x)] for the [Drawable] named [x]. *)
Definition Drawable_move_from (x : addr) : M Drawable :=
  fun σ =>
    match σ !! x with
    | Some (Wrapped d) =>
        let '(dst, src) := Drawable_move d in
        Ok (dst, <[x := Wrapped src]> σ)
    | _ => Undefined
    end.

(** [Drawable& operator=(Drawable&&) = default;], for the [Drawable] named
    [this] assigned from the one named [other]: the move assignment of
    [std::unique_ptr], [reset(other.pImpl.release())].  [release] nulls
    [other.pImpl] and returns the pointer it held; [reset] stores that
    pointer in [this->pImpl] and then deletes the model that was there, if
    any.  When [other] is [this] itself, [release] has nulled the pointer
    that [reset] finds: nothing is deleted and the object has its model
    back. *)
Definition Drawable_move_assign (this other : addr) : M unit :=
  fun σ =>
    match σ !! other with
    | Some (Wrapped o) =>
        let p := pImpl o in
        let σ := <[other := Wrapped {| pImpl := None |}]> σ in
        match σ !! this with
        | Some (Wrapped t) =>
            let old := pImpl t in
            let σ := <[this := Wrapped {| pImpl := p |}]> σ in
            Ok (tt, match old with Some q => delete q σ | None => σ end)
        | _ => Undefined
        end
    | _ => Undefined
    end.

(** [.draw()] on the object at an address, whatever it is:
    - a concrete object: its own [draw];
    - [Model<T>::draw], the override [pImpl->draw()] reaches: [object.draw()],
      on the value held or through the reference held;
    - [Drawable::draw]: [pImpl->draw()], with no test of [pImpl].
    References can chain ([Drawable] wraps a reference to a [Drawable]), so
    the walk is bounded by [fuel]. *)
Fixpoint draw_at (fuel : nat) (σ : store) (a : addr) : result output :=
  match fuel with
  | O => OutOfFuel
  | S fuel =>
      match σ !! a with
      | Some (Plain T D v) => Ok (draw_ v)
      | Some (Model T D obj) => Ok (draw_ obj)
      | Some (ModelRef target) => draw_at fuel σ target
      | Some (Wrapped d) =>
          match pImpl d with
          | Some p => draw_at fuel σ p
          | None => Undefined
          end
      | None => Undefined
      end
  end.

(** [void Drawable::draw() const { pImpl->draw(); }] *)
Definition Drawable_draw (fuel : nat) (σ : store) (d : Drawable) : result output :=
  match pImpl d with
  | Some p => draw_at fuel σ p
  | None => Undefined
  end.

(** ** The driver: [main] *)

(** [shapes.emplace_back(x)] on a [std::vector<Drawable>] with a named
    object [x], at [obj]: the new element is constructed in place from the
    lvalue, after the elements already there (a reallocation moves those,
    which keeps each [pImpl]). *)
Definition emplace_back (shapes : list Drawable) (obj : addr) : M (list Drawable) :=
  let* d := Drawable_of_lvalue obj in ret (shapes ++ [d]).

(** [for (const auto& shape : shapes) { shape.draw(); }]: what each call
    inserted, call by call. *)
Fixpoint draw_all (fuel : nat) (σ : store) (shapes : list Drawable)
    : result (list output) :=
  match shapes with
  | [] => Ok []
  | shape :: rest =>
      match Drawable_draw fuel σ shape with
      | Ok o =>
          match draw_all fuel σ rest with
          | Ok os => Ok (o :: os)
          | Undefined => Undefined
          | OutOfFuel => OutOfFuel
          end
      | Undefined => Undefined
      | OutOfFuel => OutOfFuel
      end
  end.

(** Lines 192-198 of [main] in [src/pattern/dp_type_erasure.cpp]: three
    wrappers declared from temporaries, then drawn one after the other. *)
Definition main_shapes (fuel : nat) : M (result (list output)) :=
  let* circle := Drawable_of_rvalue {| Circle_radius := 5 |} in
  let* rectangle :=
    Drawable_of_rvalue {| Rectangle_width := 3; Rectangle_height := 4 |} in
  let* triangle :=
    Drawable_of_rvalue {| Triangle_base := 6; Triangle_height := 4 |} in
  fun σ => Ok (draw_all fuel σ [circle; rectangle; triangle], σ).

(** The three locals of lines 259-261, by address. *)
Record copy_move_locals : Type :=
  { l_original : addr; l_copy : addr; l_moved : addr }.

(** Lines 259-261 of [main] in [src/cpp/dp_type_erasure.cpp]:
    [Drawable original = Circle(10.0);] wraps the temporary, read as the
    constructor does where that is well-formed (line 234 of
    [src/pattern/dp_type_erasure.cpp]);
    [Drawable copy = original;] has a non-const lvalue of type [Drawable] as
    its initialiser, for which overload resolution selects the constructor
    template with [T = Drawable&], not [Drawable(const Drawable&)];
    [Drawable moved = std::move(original);] is the move constructor. *)
Definition main_copy_move : M copy_move_locals :=
  let* d := Drawable_of_rvalue {| Circle_radius := 10 |} in
  let* original := declare (Wrapped d) in
  let* c := Drawable_of_lvalue original in
  let* copy := declare (Wrapped c) in
  let* m := Drawable_move_from original in
  let* moved := declare (Wrapped m) in
  ret {| l_original := original; l_copy := copy; l_moved := moved |}.

(** The copy constructor itself, reached with a const lvalue, on a wrapper
    made from a named circle:
    [Circle c(10.0); Drawable a(c); const Drawable& r = a; Drawable b(r);]
    returns the addresses of [c], [a] and [b]. *)
Definition copy_of_lvalue_wrapper : M (addr * addr * addr) :=
  let* c := declare (Plain Circle _ {| Circle_radius := 10 |}) in
  let* da := Drawable_of_lvalue c in
  let* a := declare (Wrapped da) in
  let* db := Drawable_copy da in
  let* b := declare (Wrapped db) in
  ret (c, a, b).

(** The model a named [Drawable] points to. *)
Definition model_of (σ : store) (x : addr) : option object :=
  match σ !! x with
  | Some (Wrapped d) =>
      match pImpl d with
      | Some p => σ !! p
      | None => None
      end
  | _ => None
  end.

(** ** [Callable] *)

(** A callable as [Callable] calls it, [int operator()(int)].  The call may
    change the object (the call operator of a [mutable] lambda is not
    [const]): the pair is the object afterwards and what the call returns,
    [None] where the call is undefined. *)
Class Invocable (F : Type) : Type := invoke_ : F -> int -> F * option int.

(** [int operator()(int) const], which leaves the object as it is. *)
Class ConstInvocable (F : Type) : Type := call_ : F -> int -> option int.

(** [std::unique_ptr<CallableConcept> pImpl;] *)
Record Callable : Type := { Callable_pImpl : option addr }.

(** What an address holds, as for [Drawable]:
    - [Lvalue]: a callable object that has a name (a lambda or a function
      pointer in a local);
    - [CallableModel]: a [CallableModel<F>] for an object type [F], with
      [F func] held by value; [call] is [const], so [func(x)] is the [const]
      call operator; as for [Model], these are models of
      [src/pattern/dp_type_erasure.cpp] only;
    - [CallableModelRef]: a [CallableModel<F&>], which [Callable(F&& f)]
      makes from an lvalue; [F& func] is bound to the argument, and
      [func(x)] calls the referent, [const] or not. *)
Inductive callable_object : Type :=
| Lvalue (F : Type) (Inv : Invocable F) (f : F)
| CallableModel (F : Type) (C : ConstInvocable F) (func : F)
| CallableModelRef (target : addr).

Abbreviation callables := (gmap addr callable_object).

Definition declare_callable (o : callable_object) : St callables addr :=
  fun σ => let a := fresh (dom σ) in Ok (a, <[a := o]> σ).

(** [template<typename F> Callable(F&& f)] of
    [src/pattern/dp_type_erasure.cpp] (lines 87-88, with [CallableModel] of
    lines 108-117) called with an rvalue of an object type [F].  As for
    [Drawable], this call does not compile in [src/cpp/dp_type_erasure.cpp],
    where [CallableModel<F>::clone] is instantiated with the class. *)
Definition Callable_of_rvalue {F : Type} `{C : ConstInvocable F} (f : F)
    : St callables Callable :=
  fun σ =>
    let p := fresh (dom σ) in
    Ok ({| Callable_pImpl := Some p |}, <[p := CallableModel F C f]> σ).

(** The constructor template, of either file, called with an lvalue, the
    callable at [f]. *)
Definition Callable_of_lvalue (f : addr) : St callables Callable :=
  fun σ =>
    let p := fresh (dom σ) in
    Ok ({| Callable_pImpl := Some p |}, <[p := CallableModelRef f]> σ).

(** [CallableModel<F>::clone] of [src/cpp/dp_type_erasure.cpp]:
    [std::make_unique<CallableModel<F>>(func)]; as for [Concept_clone], the
    clones a program makes are those of models that hold a reference. *)
Definition CallableConcept_clone (p : addr) : St callables addr :=
  fun σ =>
    match σ !! p with
    | Some (CallableModel F C func) =>
        let q := fresh (dom σ) in Ok (q, <[q := CallableModel F C func]> σ)
    | Some (CallableModelRef target) =>
        let q := fresh (dom σ) in Ok (q, <[q := CallableModelRef target]> σ)
    | _ => Undefined
    end.

(** [Callable(const Callable& other) : pImpl(other.pImpl->clone())], of
    [src/cpp/dp_type_erasure.cpp]. *)
Definition Callable_copy (other : Callable) : St callables Callable :=
  match Callable_pImpl other with
  | Some p =>
      let* q := CallableConcept_clone p in ret {| Callable_pImpl := Some q |}
  | None => fun _ => Undefined
  end.

(** [Callable(Callable&&) = default]. *)
Definition Callable_move (other : Callable) : Callable * Callable :=
  ({| Callable_pImpl := Callable_pImpl other |}, {| Callable_pImpl := None |}).

(** [operator()(Args&&... args) const]: [pImpl->call(args...)], which is
    [func(x)] in the model. *)
Definition Callable_call (c : Callable) (x : int) : St callables (option int) :=
  fun σ =>
    match Callable_pImpl c with
    | Some p =>
        match σ !! p with
        | Some (CallableModel F C func) => Ok (call_ func x, σ)
        | Some (CallableModelRef target) =>
            match σ !! target with
            | Some (Lvalue F Inv f) =>
                let '(f, r) := invoke_ f x in
                Ok (r, <[target := Lvalue F Inv f]> σ)
            | _ => Undefined
            end
        | _ => Undefined
        end
    | None => Undefined
    end.

(** The callables of [main], the same in both files. *)

(** [[](int x) { return x * 2; }] *)
Inductive lambda_double : Type := Lambda_double.

#[export] Instance lambda_double_call : ConstInvocable lambda_double :=
  fun _ x => int_mul x 2.

(** [struct Multiplier { int factor; int operator()(int x) const
    { return x * factor; } };], local to [main]. *)
Record main_Multiplier : Type := { factor : int }.

#[export] Instance main_Multiplier_call : ConstInvocable main_Multiplier :=
  fun m x => int_mul x (factor m).

(** [func_ptr], a pointer to a function from [int] to [int]: the variable
    holds the function it points to, and a call through it leaves it as it
    is. *)
#[export] Instance function_pointer_invoke : Invocable (int -> option int) :=
  fun f x => (f, f x).

(** Lines 204-220 of [main] in [src/pattern/dp_type_erasure.cpp]: [func1]
    and [func2] made from a lambda and a function object, both temporaries,
    [func3] from the function pointer [func_ptr], the lvalue it is, then
    each called on 5. *)
Definition main_functions : St callables (list (option int)) :=
  let* func1 := Callable_of_rvalue Lambda_double in
  let* func2 := Callable_of_rvalue {| factor := 3 |} in
  let* func_ptr :=
    declare_callable (Lvalue (int -> option int) _ (fun x => int_add x 10)) in
  let* func3 := Callable_of_lvalue func_ptr in
  let* r1 := Callable_call func1 5 in
  let* r2 := Callable_call func2 5 in
  let* r3 := Callable_call func3 5 in
  ret [r1; r2; r3].

(** A callable with state:
    [auto counter = [n = 0](int x) mutable { return n += x; };] *)
Record counter_lambda : Type := { counter_n : int }.

#[export] Instance counter_lambda_invoke : Invocable counter_lambda :=
  fun c x =>
    match int_add (counter_n c) x with
    | Some n => ({| counter_n := n |}, Some n)
    | None => (c, None)
    end.

(** [Callable a(counter); const Callable& r = a; Callable b(r);] then
    [b(5)] if [call_the_copy], then [a(5)]: what [a(5)] returns. *)
Definition counter_and_copy (call_the_copy : bool) : St callables (option int) :=
  let* counter := declare_callable (Lvalue counter_lambda _ {| counter_n := 0 |}) in
  let* a := Callable_of_lvalue counter in
  let* b := Callable_copy a in
  let* _ := (if call_the_copy then Callable_call b 5 else ret None) in
  Callable_call a 5.

(** ** A serializable type: [User] *)

(** [std::to_string(int)]: the decimal numeral, with a minus sign for a
    negative number. *)
Definition to_string (value : int) : string := pretty value.

Record User : Type := { User_name : string; User_age : int }.

(** [return "User{name='" + name + "', age=" + std::to_string(age) + "}";] *)
Definition User_serialize (u : User) : string :=
  "User{name='" +:+ User_name u +:+ "', age=" +:+ to_string (User_age u) +:+ "}".

(* ===================================================================== *)
(** * src/pattern/dp_type_erasure_optimized.cpp                           *)
(* ===================================================================== *)

(** ** [BadTypeEraser] and [AnyTypeEraser]: erasure checked by [typeid] *)

Section TypeChecked.

(** The [std::type_info] objects, which [operator==] compares, and the
    values of the type each one denotes.  [typeid] disregards cv-qualifiers,
    and so does this identity of types. *)
Context {type_info : Type} `{EqDecision type_info}.
Context (value_of : type_info -> Type).

(** A dynamically typed value: what [void*] or [std::any] hides. *)
Definition dyn : Type := sigT value_of.

(** The free store [new T(value)] allocates from. *)
Definition heap : Type := gmap addr dyn.

(** [void* data_; const std::type_info* type_;], [None] for [nullptr]. *)
Record BadTypeEraser : Type :=
  { data_ : option addr; type_ : option type_info }.

(** [BadTypeEraser() : data_(nullptr), type_(nullptr) {}] *)
Definition BadTypeEraser_default : BadTypeEraser :=
  {| data_ := None; type_ := None |}.

(** [BadTypeEraser(const T& value) : data_(new T(value)), type_(&typeid(T))] *)
Definition BadTypeEraser_ctor (T : type_info) (value : value_of T) (h : heap)
    : BadTypeEraser * heap :=
  let p := fresh (dom h) in
  ({| data_ := Some p; type_ := Some T |}, <[p := existT T value]> h).

(** [T* get()]:
    [if (type_ && *type_ == typeid(T)) return static_cast<T*>(data_);
     return nullptr;] *)
Definition BadTypeEraser_get (T : type_info) (e : BadTypeEraser) : option addr :=
  match type_ e with
  | Some t => if decide (t = T) then data_ e else None
  | None => None
  end.

(** [std::any data_;], [None] for an [any] without a value. *)
Record AnyTypeEraser : Type := { any_data_ : option dyn }.

(** [AnyTypeEraser() = default;] *)
Definition AnyTypeEraser_default : AnyTypeEraser := {| any_data_ := None |}.

(** [AnyTypeEraser(T value) : data_(std::move(value)) {}] *)
Definition AnyTypeEraser_ctor (T : type_info) (value : value_of T) : AnyTypeEraser :=
  {| any_data_ := Some (existT T value) |}.

(** [std::any_cast<T>(&operand)]: a pointer to the contained object when the
    [any] holds a [T], the null pointer otherwise.  The pointer goes into the
    [any] itself, so it is given by the object it points to. *)
Definition any_cast (T : type_info) (operand : option dyn) : option (value_of T) :=
  match operand with
  | Some (existT t v) =>
      match decide (t = T) with
      | left e => Some (eq_rect t value_of v T e)
      | right _ => None
      end
  | None => None
  end.

(** [T* get() { return std::any_cast<T>(&data_); }] *)
Definition AnyTypeEraser_get (T : type_info) (e : AnyTypeEraser) : option (value_of T) :=
  any_cast T (any_data_ e).

(** [bool hasValue() const { return data_.has_value(); }] *)
Definition AnyTypeEraser_hasValue (e : AnyTypeEraser) : bool :=
  match any_data_ e with
  | Some _ => true
  | None => false
  end.

(** What [std::any_cast] throws when the [any] does not hold the type asked
    for. *)
Inductive exception : Type := bad_any_cast.

(** [T getValue() const { return std::any_cast<T>(data_); }]: a copy of the
    contained value, or [std::bad_any_cast] thrown. *)
Definition AnyTypeEraser_getValue (T : type_info) (e : AnyTypeEraser)
    : exception + value_of T :=
  match any_cast T (any_data_ e) with
  | Some v => inr v
  | None => inl bad_any_cast
  end.

(** [const std::type_info& type() const { return data_.type(); }]; [None]
    stands for [typeid(void)], which an [any] without a value reports. *)
Definition AnyTypeEraser_type (e : AnyTypeEraser) : option type_info :=
  match any_data_ e with
  | Some (existT t _) => Some t
  | None => None
  end.

(** [const T* get() const], the const overload of [BadTypeEraser::get]: the
    same test, the same pointer. *)
Definition BadTypeEraser_get_const (T : type_info) (e : BadTypeEraser)
    : option addr :=
  match type_ e with
  | Some t => if decide (t = T) then data_ e else None
  | None => None
  end.

End TypeChecked.

Arguments BadTypeEraser type_info : clear implicits.
Arguments BadTypeEraser_default {type_info}.
Arguments BadTypeEraser_get {type_info _} T e.
Arguments data_ {type_info} _.
Arguments type_ {type_info} _.
Arguments AnyTypeEraser_hasValue {type_info value_of} e.
Arguments AnyTypeEraser_type {type_info value_of} e.
Arguments BadTypeEraser_get_const {type_info _} T e.

(** ** [ModernTypeEraser]: erasure by [std::function] *)

(** What a type must provide to be erased: the capability set
    [void print() const] and [int calculate(int) const] ([None] where the
    call is undefined), a move constructor, given by the state it leaves its
    argument in (the object constructed has the argument's former value), and
    the name [typeid(T).name()] gives. *)
Class Erasable (T : Type) : Type :=
  { print_ : T -> output;
    calculate_ : T -> int -> option int;
    moved_from : T -> T;
    type_name : string }.

(** A closure object of one of the lambda expressions
    [[value = std::move(value)] ...]: its one capture.  Which body it runs is
    fixed by the [std::function] member that holds it. *)
Record closure : Type :=
  Closure { captured : Type; captured_ops : Erasable captured; value : captured }.

(** The four data members; a [std::function] without a target is [None]. *)
Record ModernTypeEraser : Type :=
  { printFunc_ : option closure;
    calculateFunc_ : option closure;
    cloneFunc_ : option closure;
    typeName_ : string }.

(** [ModernTypeEraser() = default;] *)
Definition ModernTypeEraser_default : ModernTypeEraser :=
  {| printFunc_ := None; calculateFunc_ := None; cloneFunc_ := None;
     typeName_ := "" |}.

(** [template<typename T> ModernTypeEraser(T value)].  The members are
    initialised in the order [printFunc_], [calculateFunc_], [cloneFunc_];
    each initialiser captures [value = std::move(value)], the same parameter:
    the capture is move-constructed from the parameter, which is left in its
    moved-from state for the next initialiser. *)
Definition ModernTypeEraser_ctor {T : Type} `{E : Erasable T} (value : T)
    : ModernTypeEraser :=
  let capture1 := value in
  let value := moved_from value in
  let capture2 := value in
  let value := moved_from value in
  let capture3 := value in
  {| printFunc_ := Some (Closure T E capture1);
     calculateFunc_ := Some (Closure T E capture2);
     cloneFunc_ := Some (Closure T E capture3);
     typeName_ := type_name |}.

(** The copy constructor: each member copied from [other]'s. *)
Definition ModernTypeEraser_copy (other : ModernTypeEraser) : ModernTypeEraser :=
  {| printFunc_ := printFunc_ other;
     calculateFunc_ := calculateFunc_ other;
     cloneFunc_ := cloneFunc_ other;
     typeName_ := typeName_ other |}.

(** [ModernTypeEraser(ModernTypeEraser&&) = default;]: each member moved.
    The pair is the new object and what is left of the source.  A
    [std::function] whose target was moved away has none left (so libstdc++;
    the standard says valid but unspecified), and likewise the string. *)
Definition ModernTypeEraser_move (other : ModernTypeEraser)
    : ModernTypeEraser * ModernTypeEraser :=
  ({| printFunc_ := printFunc_ other;
      calculateFunc_ := calculateFunc_ other;
      cloneFunc_ := cloneFunc_ other;
      typeName_ := typeName_ other |},
   {| printFunc_ := None; calculateFunc_ := None; cloneFunc_ := None;
      typeName_ := "" |}).

(** [void print() const { if (printFunc_) { printFunc_(); } }] with
    [printFunc_] running [value.print()]. *)
Definition ModernTypeEraser_print (e : ModernTypeEraser) : output :=
  match printFunc_ e with
  | Some c => @print_ (captured c) (captured_ops c) (value c)
  | None => []
  end.

(** [int calculate(int value) const
     { if (calculateFunc_) { return calculateFunc_(value); } return 0; }]
    with [calculateFunc_] running [value.calculate(x)]. *)
Definition ModernTypeEraser_calculate (e : ModernTypeEraser) (x : int) : option int :=
  match calculateFunc_ e with
  | Some c => @calculate_ (captured c) (captured_ops c) (value c) x
  | None => Some 0
  end.

(** [ModernTypeEraser clone() const
     { if (cloneFunc_) { return cloneFunc_(); } return ModernTypeEraser{}; }]
    with [cloneFunc_] the [mutable] lambda running
    [ModernTypeEraser(std::move(value))]: the constructor's parameter is
    move-constructed from the capture, which changes the closure.  The pair
    is the eraser returned and this eraser afterwards. *)
Definition ModernTypeEraser_clone (e : ModernTypeEraser)
    : ModernTypeEraser * ModernTypeEraser :=
  match cloneFunc_ e with
  | Some c =>
      (@ModernTypeEraser_ctor (captured c) (captured_ops c) (value c),
       {| printFunc_ := printFunc_ e;
          calculateFunc_ := calculateFunc_ e;
          cloneFunc_ :=
            Some (Closure (captured c) (captured_ops c)
                    (@moved_from (captured c) (captured_ops c) (value c)));
          typeName_ := typeName_ e |})
  | None => (ModernTypeEraser_default, e)
  end.

(** [const std::string& getTypeName() const { return typeName_; }] *)
Definition ModernTypeEraser_getTypeName (e : ModernTypeEraser) : string :=
  typeName_ e.

(** [bool isValid() const { return printFunc_ && calculateFunc_; }] *)
Definition ModernTypeEraser_isValid (e : ModernTypeEraser) : bool :=
  match printFunc_ e, calculateFunc_ e with
  | Some _, Some _ => true
  | _, _ => false
  end.

(** Copy assignment: [if (this != &other)] then each member is assigned from
    [other]'s; assigning an eraser to itself leaves it as it is, which is the
    same value. *)
Definition ModernTypeEraser_copy_assign (this other : ModernTypeEraser)
    : ModernTypeEraser :=
  ModernTypeEraser_copy other.

(** Move assignment of a [std::function] member from another object's, in
    libstdc++ a temporary [function(std::move(x))] swapped with [*this]: the
    temporary takes [x]'s target and leaves [x] without one, then swaps with
    [*this], whose former target goes with the temporary.  The pair is
    [*this] and [x] afterwards. *)
Definition function_move_assign (this x : option closure)
    : option closure * option closure :=
  (x, None).

(** The same when [x] is [*this]: the temporary takes the target and the
    swap gives it back. *)
Definition function_self_move_assign (f : option closure) : option closure := f.

(** Move assignment of the [std::string] member from another object's, in
    libstdc++: [*this] takes [str]'s characters, then [str.clear()]. *)
Definition string_move_assign (this str : string) : string * string :=
  (str, "").

(** The same when [str] is [*this]: the characters stay where they are, and
    [str.clear()] empties the string. *)
Definition string_self_move_assign (s : string) : string := "".

(** [ModernTypeEraser& operator=(ModernTypeEraser&&) = default;] for two
    distinct objects: each member is move-assigned from [other]'s.  The pair
    is [this] and [other] afterwards. *)
Definition ModernTypeEraser_move_assign (this other : ModernTypeEraser)
    : ModernTypeEraser * ModernTypeEraser :=
  let '(p, p') := function_move_assign (printFunc_ this) (printFunc_ other) in
  let '(c, c') := function_move_assign (calculateFunc_ this) (calculateFunc_ other) in
  let '(k, k') := function_move_assign (cloneFunc_ this) (cloneFunc_ other) in
  let '(n, n') := string_move_assign (typeName_ this) (typeName_ other) in
  ({| printFunc_ := p; calculateFunc_ := c; cloneFunc_ := k; typeName_ := n |},
   {| printFunc_ := p'; calculateFunc_ := c'; cloneFunc_ := k'; typeName_ := n' |}).

(** The same operator in [e = std::move(e)]: each member is move-assigned
    from itself.  The three functions keep their targets; the type name is
    emptied. *)
Definition ModernTypeEraser_self_move_assign (e : ModernTypeEraser)
    : ModernTypeEraser :=
  {| printFunc_ := function_self_move_assign (printFunc_ e);
     calculateFunc_ := function_self_move_assign (calculateFunc_ e);
     cloneFunc_ := function_self_move_assign (cloneFunc_ e);
     typeName_ := string_self_move_assign (typeName_ e) |}.

(** ** Example types that can be erased *)

(** Their only member is an [int]: the implicit move constructor copies it,
    and the moved-from object keeps its value. *)

Record Calculator : Type := { multiplier_ : int }.

Definition Calculator_print (c : Calculator) : output :=
  [Str "Calculator with multiplier: "; Int (multiplier_ c); Endl].

(** [return value * multiplier_;] *)
Definition Calculator_calculate (c : Calculator) (value : int) : option int :=
  int_mul value (multiplier_ c).

Record Adder : Type := { addend_ : int }.

Definition Adder_print (a : Adder) : output :=
  [Str "Adder with addend: "; Int (addend_ a); Endl].

(** [return value + addend_;] *)
Definition Adder_calculate (a : Adder) (value : int) : option int :=
  int_add value (addend_ a).

Record Multiplier : Type := { factor_ : int }.

Definition Multiplier_print (m : Multiplier) : output :=
  [Str "Multiplier with factor: "; Int (factor_ m); Endl].

(** [return value * factor_;] *)
Definition Multiplier_calculate (m : Multiplier) (value : int) : option int :=
  int_mul value (factor_ m).

(** [typeid(T).name()] is implementation-defined; these are the names g++
    gives. *)
#[export] Instance Calculator_Erasable : Erasable Calculator :=
  {| print_ := Calculator_print; calculate_ := Calculator_calculate;
     moved_from := fun c => c; type_name := "10Calculator" |}.

#[export] Instance Adder_Erasable : Erasable Adder :=
  {| print_ := Adder_print; calculate_ := Adder_calculate;
     moved_from := fun a => a; type_name := "5Adder" |}.

#[export] Instance Multiplier_Erasable : Erasable Multiplier :=
  {| print_ := Multiplier_print; calculate_ := Multiplier_calculate;
     moved_from := fun m => m; type_name := "10Multiplier" |}.

(** A move constructor that leaves its source with the value it had:
    every scalar-only class, the three above among them. *)
Definition move_keeps_value (T : Type) `{E : Erasable T} : Prop :=
  forall v : T, moved_from v = v.

(** ** [FunctionTypeEraser] *)

Record FunctionTypeEraser : Type :=
  { fn_printFunc_ : option closure;
    fn_calculateFunc_ : option closure;
    fn_typeFunc_ : option closure }.

(** [template<typename T> FunctionTypeEraser(T value)]: three captures
    [value = std::move(value)] of the one parameter again, in the order
    [printFunc_], [calculateFunc_], [typeFunc_]. *)
Definition FunctionTypeEraser_ctor {T : Type} `{E : Erasable T} (value : T)
    : FunctionTypeEraser :=
  let capture1 := value in
  let value := moved_from value in
  let capture2 := value in
  let value := moved_from value in
  let capture3 := value in
  {| fn_printFunc_ := Some (Closure T E capture1);
     fn_calculateFunc_ := Some (Closure T E capture2);
     fn_typeFunc_ := Some (Closure T E capture3) |}.

(** The implicit move constructor: each [std::function] moved. *)
Definition FunctionTypeEraser_move (other : FunctionTypeEraser)
    : FunctionTypeEraser * FunctionTypeEraser :=
  ({| fn_printFunc_ := fn_printFunc_ other;
      fn_calculateFunc_ := fn_calculateFunc_ other;
      fn_typeFunc_ := fn_typeFunc_ other |},
   {| fn_printFunc_ := None; fn_calculateFunc_ := None; fn_typeFunc_ := None |}).

(** [void print() const { if (printFunc_) printFunc_(); }] *)
Definition FunctionTypeEraser_print (e : FunctionTypeEraser) : output :=
  match fn_printFunc_ e with
  | Some c => @print_ (captured c) (captured_ops c) (value c)
  | None => []
  end.

(** [return calculateFunc_ ? calculateFunc_(value) : 0;] *)
Definition FunctionTypeEraser_calculate (e : FunctionTypeEraser) (x : int)
    : option int :=
  match fn_calculateFunc_ e with
  | Some c => @calculate_ (captured c) (captured_ops c) (value c) x
  | None => Some 0
  end.

(** [return typeFunc_ ? typeFunc_() : "Unknown";] with [typeFunc_] running
    [typeid(value).name()]. *)
Definition FunctionTypeEraser_getTypeName (e : FunctionTypeEraser) : string :=
  match fn_typeFunc_ e with
  | Some c => @type_name (captured c) (captured_ops c)
  | None => "Unknown"
  end.

(** ** Erasure behind a virtual interface: [IOperation] *)

(** The capability set of [OperationWrapper]: [void execute()], which is not
    [const] and may change the object, and [std::string getType() const]. *)
Class Executable (T : Type) : Type :=
  { execute_ : T -> T * output;
    getType_ : T -> string }.

Record PrintOperation : Type := { message_ : string }.

Definition PrintOperation_execute (p : PrintOperation) : PrintOperation * output :=
  (p, [Str "Printing: "; Str (message_ p); Endl]).

Record MathOperation : Type := { value_ : int }.

Definition MathOperation_execute (m : MathOperation) : MathOperation * output :=
  (m, [Str "Calculating with value: "; Int (value_ m); Endl]).

#[export] Instance PrintOperation_Executable : Executable PrintOperation :=
  {| execute_ := PrintOperation_execute; getType_ := fun _ => "Print" |}.

#[export] Instance MathOperation_Executable : Executable MathOperation :=
  {| execute_ := MathOperation_execute; getType_ := fun _ => "Math" |}.

(** An [IOperation] is an [OperationWrapper<T>] for some [T], with its
    member [T operation_].  The container owns each one through a
    [std::unique_ptr] and hands out no other access, so the object is given
    by value. *)
Inductive IOperation : Type :=
| OperationWrapper (T : Type) (E : Executable T) (operation_ : T).

(** [void execute() override { operation_.execute(); }]: the wrapper
    afterwards and what the call inserted. *)
Definition IOperation_execute (op : IOperation) : IOperation * output :=
  match op with
  | OperationWrapper T E operation_ =>
      let '(operation_, out) := execute_ operation_ in
      (OperationWrapper T E operation_, out)
  end.

(** [std::string getType() const override { return operation_.getType(); }] *)
Definition IOperation_getType (op : IOperation) : string :=
  match op with
  | OperationWrapper T E operation_ => getType_ operation_
  end.

(** [clone() const]: [std::make_unique<OperationWrapper>(operation_)]. *)
Definition IOperation_clone (op : IOperation) : IOperation :=
  match op with
  | OperationWrapper T E operation_ => OperationWrapper T E operation_
  end.

(** [std::vector<std::unique_ptr<IOperation>> operations_;] *)
Record TypeErasureContainer : Type := { operations_ : list IOperation }.

Definition TypeErasureContainer_empty : TypeErasureContainer :=
  {| operations_ := [] |}.

(** [void add(T value)]:
    [operations_.push_back(std::make_unique<OperationWrapper<T>>(std::move(value)))].
    The value reaches [operation_] through two move constructions, each into
    a fresh object. *)
Definition TypeErasureContainer_add {T : Type} `{E : Executable T} (value : T)
    (c : TypeErasureContainer) : TypeErasureContainer :=
  {| operations_ := operations_ c ++ [OperationWrapper T E value] |}.

(** [for (const auto& op : operations_) { op->execute(); }] over a vector:
    the elements afterwards and what each call inserted, call by call. *)
Fixpoint execute_each (ops : list IOperation) : list IOperation * list output :=
  match ops with
  | [] => ([], [])
  | op :: rest =>
      let '(op, out) := IOperation_execute op in
      let '(rest, outs) := execute_each rest in
      (op :: rest, out :: outs)
  end.

(** [void executeAll()] *)
Definition TypeErasureContainer_executeAll (c : TypeErasureContainer)
    : TypeErasureContainer * list output :=
  let '(ops, outs) := execute_each (operations_ c) in
  ({| operations_ := ops |}, outs).

(** [size_t size() const { return operations_.size(); }] *)
Definition TypeErasureContainer_size (c : TypeErasureContainer) : nat := length (operations_ c).

(** [void clear() { operations_.clear(); }] *)
Definition TypeErasureContainer_clear (c : TypeErasureContainer) : TypeErasureContainer :=
  {| operations_ := [] |}.

(** ** [ConceptBasedEraser] *)

(** [template<typename T> class ConceptBasedEraser] with its member
    [T value_]; the [static_assert] on [is_executable<T>] is the class
    constraint the members below carry. *)
Record ConceptBasedEraser (T : Type) : Type := { concept_value_ : T }.

Arguments concept_value_ {T} _.

(** [explicit ConceptBasedEraser(T value) : value_(std::move(value)) {}] *)
Definition ConceptBasedEraser_ctor {T : Type} (value : T) : ConceptBasedEraser T :=
  {| concept_value_ := value |}.

(** [void execute() { value_.execute(); }] *)
Definition ConceptBasedEraser_execute {T : Type} `{E : Executable T}
    (e : ConceptBasedEraser T) : ConceptBasedEraser T * output :=
  let '(v, out) := execute_ (concept_value_ e) in
  ({| concept_value_ := v |}, out).

(** [std::string getType() const { return value_.getType(); }] *)
Definition ConceptBasedEraser_getType {T : Type} `{E : Executable T}
    (e : ConceptBasedEraser T) : string :=
  getType_ (concept_value_ e).

(** [const T& getValue() const { return value_; }] *)
Definition ConceptBasedEraser_getValue {T : Type} (e : ConceptBasedEraser T) : T :=
  concept_value_ e.

(** ** [VariantTypeEraser] *)

(** [using VariantEraser = std::variant<Calculator, Adder, Multiplier>;] *)
Inductive VariantEraser : Type :=
| holds_Calculator (c : Calculator)
| holds_Adder (a : Adder)
| holds_Multiplier (m : Multiplier).

Record VariantTypeEraser : Type := { variant_data_ : VariantEraser }.

(** The types [std::variant]'s converting constructor accepts: each is set
    as the alternative of its own type. *)
Class Alternative (T : Type) : Type := alternative : T -> VariantEraser.

#[export] Instance Calculator_Alternative : Alternative Calculator := holds_Calculator.
#[export] Instance Adder_Alternative : Alternative Adder := holds_Adder.
#[export] Instance Multiplier_Alternative : Alternative Multiplier := holds_Multiplier.

(** [template<typename T> VariantTypeEraser(T value) : data_(std::move(value))] *)
Definition VariantTypeEraser_ctor {T : Type} `{A : Alternative T} (value : T)
    : VariantTypeEraser :=
  {| variant_data_ := alternative value |}.

(** [std::visit([](const auto& value) { value.print(); }, data_);] *)
Definition VariantTypeEraser_print (e : VariantTypeEraser) : output :=
  match variant_data_ e with
  | holds_Calculator c => Calculator_print c
  | holds_Adder a => Adder_print a
  | holds_Multiplier m => Multiplier_print m
  end.

(** [std::visit([value](const auto& obj) { return obj.calculate(value); },
    data_);] *)
Definition VariantTypeEraser_calculate (e : VariantTypeEraser) (value : int)
    : option int :=
  match variant_data_ e with
  | holds_Calculator c => Calculator_calculate c value
  | holds_Adder a => Adder_calculate a value
  | holds_Multiplier m => Multiplier_calculate m value
  end.

(** [std::visit([](const auto& obj) { return typeid(obj).name(); }, data_);] *)
Definition VariantTypeEraser_getTypeName (e : VariantTypeEraser) : string :=
  match variant_data_ e with
  | holds_Calculator _ => type_name (T := Calculator)
  | holds_Adder _ => type_name (T := Adder)
  | holds_Multiplier _ => type_name (T := Multiplier)
  end.

(* ===================================================================== *)
(** * Vocabulary of the statements                                        *)
(* ===================================================================== *)

(** The two-shape scenario in [src/cpp/dp_type_erasure.cpp]:
    [Circle c(5.0); Rectangle r(3.0, 4.0); std::vector<Drawable> shapes;
     shapes.emplace_back(c); shapes.emplace_back(r);]
    a circle of radius 5, then a rectangle 3 by 4, appended to an empty
    vector.  The shapes have names: that file makes wrappers from lvalues
    only. *)
Definition circle_then_rectangle : M (list Drawable) :=
  let* c := declare (Plain Circle _ {| Circle_radius := 5 |}) in
  let* r :=
    declare (Plain Rectangle _ {| Rectangle_width := 3; Rectangle_height := 4 |}) in
  let* shapes := ret [] in
  let* shapes := emplace_back shapes c in
  emplace_back shapes r.

(** A value of some drawable type. *)
Record shape : Type :=
  Shape { shape_type : Type; shape_ops : Draw shape_type; shape_value : shape_type }.

(** What [draw()] inserts when called on the value itself. *)
Definition shape_output (v : shape) : output :=
  @draw_ (shape_type v) (shape_ops v) (shape_value v).

(** Declarations of named shapes, [T x(...);] one after the other: their
    addresses. *)
Fixpoint declare_all (vs : list shape) : M (list addr) :=
  match vs with
  | [] => ret []
  | v :: vs =>
      let* a := declare (Plain (shape_type v) (shape_ops v) (shape_value v)) in
      let* rest := declare_all vs in
      ret (a :: rest)
  end.

(** Successive [emplace_back] calls on named shapes, first to last. *)
Fixpoint emplace_all (objs : list addr) (shapes : list Drawable) : M (list Drawable) :=
  match objs with
  | [] => ret shapes
  | obj :: objs =>
      let* shapes := emplace_back shapes obj in
      emplace_all objs shapes
  end.

(** [vs] declared as named shapes and appended in that order to an empty
    vector: the vector. *)
Definition emplace_named (vs : list shape) : M (list Drawable) :=
  let* objs := declare_all vs in
  emplace_all objs [].

(** The object at [a] is the named shape [v]. *)
Definition names (σ : store) (a : addr) (v : shape) : Prop :=
  σ !! a = Some (Plain (shape_type v) (shape_ops v) (shape_value v)).

(** Each wrapper of a vector owns a model that refers to the named shape it
    was made from. *)
Definition holds (σ : store) (d : Drawable) (v : shape) : Prop :=
  exists p a : addr,
    pImpl d = Some p /\
    σ !! p = Some (ModelRef a) /\
    names σ a v.

(** A value of some executable type, as handed to [add]. *)
Record operand : Type :=
  Operand { operand_type : Type;
            operand_ops : Executable operand_type;
            operand_value : operand_type }.

Definition add_operand (c : TypeErasureContainer) (v : operand)
    : TypeErasureContainer :=
  @TypeErasureContainer_add (operand_type v) (operand_ops v) (operand_value v) c.

(** Successive [add] calls, first to last. *)
Definition add_all (vs : list operand) (c : TypeErasureContainer)
    : TypeErasureContainer :=
  fold_left add_operand vs c.

(** What [execute()] inserts when called on the value itself. *)
Definition operand_output (v : operand) : output :=
  snd (@execute_ (operand_type v) (operand_ops v) (operand_value v)).

(** The types [main] stores in a [BadTypeEraser] and an [AnyTypeEraser],
    with two more to ask for. *)
Inductive main_type : Type := t_int | t_Calculator | t_Adder | t_double.

#[export] Instance main_type_eq_dec : EqDecision main_type.
Proof. solve_decision. Defined.

Definition main_value (t : main_type) : Type :=
  match t with
  | t_int => int
  | t_Calculator => Calculator
  | t_Adder => Adder
  | t_double => float
  end.

(** A client type of [ModernTypeEraser] with a member that a move empties:
    [class Tally { std::vector<int> entries_; ... }] with
    [print() const] inserting the number of entries and
    [calculate(int value) const] returning [value + entries_.size()].  The
    implicit move constructor moves the vector, which leaves the source's
    vector empty. *)
Record Tally : Type := { entries_ : list int }.

Definition Tally_print (t : Tally) : output :=
  [Str "Tally of "; Int (Z.of_nat (length (entries_ t))); Endl].

Definition Tally_calculate (t : Tally) (value : int) : option int :=
  int_add value (Z.of_nat (length (entries_ t))).

#[export] Instance Tally_Erasable : Erasable Tally :=
  {| print_ := Tally_print; calculate_ := Tally_calculate;
     moved_from := fun _ => {| entries_ := [] |}; type_name := "5Tally" |}.

(** The objects that make the behaviour of a [Callable]: the models its
    [pImpl] can point to. *)
Definition is_model (o : callable_object) : bool :=
  match o with
  | CallableModel _ _ _ | CallableModelRef _ => true
  | Lvalue _ _ _ => false
  end.

(** The capabilities a [ModernTypeEraser] exposes, and what a call gives. *)
Inductive capability : Type :=
| Print
| Calculate (x : int)
| Clone
| GetTypeName
| IsValid.

Inductive answer : Type :=
| Printed (out : output)
| Calculated (r : option int)
| Cloned (e : ModernTypeEraser)
| Named (s : string)
| Valid (b : bool).

(** One call of a capability: the answer and the eraser afterwards.  Only
    [clone] runs a [mutable] lambda; the others leave every member as it is. *)
Definition invoke (c : capability) (e : ModernTypeEraser)
    : answer * ModernTypeEraser :=
  match c with
  | Print => (Printed (ModernTypeEraser_print e), e)
  | Calculate x => (Calculated (ModernTypeEraser_calculate e x), e)
  | Clone => let '(r, e) := ModernTypeEraser_clone e in (Cloned r, e)
  | GetTypeName => (Named (ModernTypeEraser_getTypeName e), e)
  | IsValid => (Valid (ModernTypeEraser_isValid e), e)
  end.

(** Calls one after the other, each on the eraser the one before left. *)
Definition invoke_each (cs : list capability) (e : ModernTypeEraser)
    : ModernTypeEraser :=
  fold_left (fun e c => snd (invoke c e)) cs e.

(** What a closure is apart from the value it captured: the type erased and
    its operations. *)
Record binding : Type :=
  Binding { bound_type : Type; bound_ops : Erasable bound_type }.

Definition binding_of (c : closure) : binding :=
  Binding (captured c) (captured_ops c).

(** The behaviour set of an eraser: what each [std::function] member is bound
    to, if to anything. *)
Definition behavior (e : ModernTypeEraser)
    : option binding * option binding * option binding :=
  (option_map binding_of (printFunc_ e),
   option_map binding_of (calculateFunc_ e),
   option_map binding_of (cloneFunc_ e)).

(** The dynamic type of an [IOperation]: the instantiation of
    [OperationWrapper] whose overrides its virtual calls reach. *)
Record dynamic_type : Type :=
  DynamicType { wrapped_type : Type; wrapped_ops : Executable wrapped_type }.

Definition IOperation_dynamic_type (op : IOperation) : dynamic_type :=
  match op with
  | OperationWrapper T E _ => DynamicType T E
  end.

(** *** Erasers the interface of [ModernTypeEraser] can produce *)

(** An eraser is coherent when it is the empty one, or its three functions
    are bound over one type; the name it reports is then that type's, or
    empty. *)
Definition coherent (e : ModernTypeEraser) : Prop :=
  e = ModernTypeEraser_default \/
  exists (T : Type) (E : Erasable T) (v1 v2 v3 : T) (name : string),
    e = {| printFunc_ := Some (Closure T E v1);
           calculateFunc_ := Some (Closure T E v2);
           cloneFunc_ := Some (Closure T E v3);
           typeName_ := name |} /\
    (name = @type_name T E \/ name = "").

(** What the constructors, the assignments, an assignment of an eraser to
    itself included, and [clone] give, starting from nothing. *)
Inductive reachable : ModernTypeEraser -> Prop :=
| reach_default : reachable ModernTypeEraser_default
| reach_ctor (T : Type) (E : Erasable T) (v : T) :
    reachable (@ModernTypeEraser_ctor T E v)
| reach_copy e : reachable e -> reachable (ModernTypeEraser_copy e)
| reach_copy_assign this e :
    reachable this -> reachable e -> reachable (ModernTypeEraser_copy_assign this e)
| reach_move e : reachable e -> reachable (fst (ModernTypeEraser_move e))
| reach_moved_from e : reachable e -> reachable (snd (ModernTypeEraser_move e))
| reach_move_assign this e :
    reachable this -> reachable e ->
    reachable (fst (ModernTypeEraser_move_assign this e))
| reach_move_assigned_from this e :
    reachable this -> reachable e ->
    reachable (snd (ModernTypeEraser_move_assign this e))
| reach_self_move_assign e :
    reachable e -> reachable (ModernTypeEraser_self_move_assign e)
| reach_clone e : reachable e -> reachable (fst (ModernTypeEraser_clone e))
| reach_cloned_from e : reachable e -> reachable (snd (ModernTypeEraser_clone e)).

(** The [VariantTypeEraser], the [ModernTypeEraser] and the
    [FunctionTypeEraser] made of one value of one of the three example
    types. *)
Definition variant_of (d : VariantEraser) : VariantTypeEraser :=
  match d with
  | holds_Calculator c => VariantTypeEraser_ctor c
  | holds_Adder a => VariantTypeEraser_ctor a
  | holds_Multiplier m => VariantTypeEraser_ctor m
  end.

Definition modern_of (d : VariantEraser) : ModernTypeEraser :=
  match d with
  | holds_Calculator c => ModernTypeEraser_ctor c
  | holds_Adder a => ModernTypeEraser_ctor a
  | holds_Multiplier m => ModernTypeEraser_ctor m
  end.

Definition function_of (d : VariantEraser) : FunctionTypeEraser :=
  match d with
  | holds_Calculator c => FunctionTypeEraser_ctor c
  | holds_Adder a => FunctionTypeEraser_ctor a
  | holds_Multiplier m => FunctionTypeEraser_ctor m
  end.

(** *** Running operations *)

(** [n] calls of an [execute], one after the other: the object after the
    last and what each call inserted. *)
Fixpoint execute_times {S : Type} (execute : S -> S * output) (n : nat) (s : S)
    : S * list output :=
  match n with
  | O => (s, [])
  | S n =>
      let '(s, out) := execute s in
      let '(s, outs) := execute_times execute n s in
      (s, out :: outs)
  end.

(** An operation that [execute] leaves as it was. *)
Definition steady (op : IOperation) : Prop := fst (IOperation_execute op) = op.

(** *** Declarations of [Drawable] objects *)

(** [Drawable x = T(...);] (from a temporary, as line 192 of
    [src/pattern/dp_type_erasure.cpp]) and [Drawable x(obj);]: the wrapper
    is made and gets its address. *)
Definition declare_of_rvalue {T : Type} `{D : Draw T} (obj : T) : M addr :=
  let* d := Drawable_of_rvalue obj in declare (Wrapped d).

Definition declare_of_lvalue (obj : addr) : M addr :=
  let* d := Drawable_of_lvalue obj in declare (Wrapped d).

(** [Drawable y(std::as_const(x));] for the [Drawable] named [x]: the copy
    constructor. *)
Definition declare_copy (x : addr) : M addr :=
  fun σ =>
    match σ !! x with
    | Some (Wrapped d) => (let* c := Drawable_copy d in declare (Wrapped c)) σ
    | _ => Undefined
    end.

(** [Drawable y = std::move(x);] for the [Drawable] named [x]. *)
Definition declare_moved (x : addr) : M addr :=
  let* m := Drawable_move_from x in declare (Wrapped m).

(** The named [Drawable] at [x] owns the model at [p]. *)
Definition owns (σ : store) (x p : addr) : Prop :=
  exists d : Drawable, σ !! x = Some (Wrapped d) /\ pImpl d = Some p.

Definition is_Model (o : object) : bool :=
  match o with
  | Model _ _ _ | ModelRef _ => true
  | Plain _ _ _ | Wrapped _ => false
  end.

(** Every model owned is there, and no model has two owners. *)
Definition well_owned (σ : store) : Prop :=
  (forall x p : addr, owns σ x p ->
     exists m : object, σ !! p = Some m /\ is_Model m = true) /\
  (forall x y p : addr, owns σ x p -> owns σ y p -> x = y).

(** The declarations a function body is made of: a concrete object with a
    name, a [Drawable] made from a temporary or from a named object, a copy
    of a named [Drawable], a [Drawable] moved from a named one. *)
Inductive declaration : Type :=
| DeclareObject (v : shape)
| DeclareOfRvalue (v : shape)
| DeclareOfLvalue (obj : addr)
| DeclareCopy (x : addr)
| DeclareMoved (x : addr).

Definition execute_declaration (s : declaration) : M addr :=
  match s with
  | DeclareObject v => declare (Plain (shape_type v) (shape_ops v) (shape_value v))
  | DeclareOfRvalue v => @declare_of_rvalue (shape_type v) (shape_ops v) (shape_value v)
  | DeclareOfLvalue obj => declare_of_lvalue obj
  | DeclareCopy x => declare_copy x
  | DeclareMoved x => declare_moved x
  end.

(** The declarations of a body, in order: the addresses of the objects
    declared. *)
Fixpoint execute_declarations (body : list declaration) : M (list addr) :=
  match body with
  | [] => ret []
  | s :: body =>
      let* a := execute_declaration s in
      let* rest := execute_declarations body in
      ret (a :: rest)
  end.

(** *** Reading a serialized string back *)

(** The string has no occurrence of the character. *)
Fixpoint free_of (c : ascii) (s : string) : Prop :=
  match s with
  | EmptyString => True
  | String a s => a <> c /\ free_of c s
  end.

(** The string cut at the last occurrence of the character: what is before
    and what is after. *)
Fixpoint split_last (c : ascii) (s : string) : option (string * string) :=
  match s with
  | EmptyString => None
  | String a s =>
      match split_last c s with
      | Some (before, after) => Some (String a before, after)
      | None => if decide (a = c) then Some (EmptyString, s) else None
      end
  end.

(* ===================================================================== *)
(** * Properties                                                          *)
(* ===================================================================== *)

(** ** The store *)

Lemma fresh_addr_lookup (σ : store) : σ !! fresh_addr σ = None.
Proof.
  apply (not_elem_of_dom (D := gset addr)).
  unfold fresh_addr. apply is_fresh.
Qed.

Lemma lookup_fresh_ne (σ : store) (a : addr) (o : object) :
  σ !! a = Some o -> a <> fresh_addr σ.
Proof.
  intros Ha ->. rewrite fresh_addr_lookup in Ha. discriminate.
Qed.

(** An allocation leaves every object that was there where it was. *)
Lemma lookup_alloc (σ : store) (a : addr) (o new : object) :
  σ !! a = Some o -> <[fresh_addr σ := new]> σ !! a = Some o.
Proof.
  intros Ha. rewrite lookup_insert_ne; [exact Ha|].
  intros E. symmetry in E. revert E. eapply lookup_fresh_ne, Ha.
Qed.

(** More fuel never changes an answer already reached. *)
Lemma draw_at_fuel_mono (σ : store) (n : nat) :
  forall (a : addr) (out : result output),
    draw_at n σ a = out -> out <> OutOfFuel -> draw_at (S n) σ a = out.
Proof.
  induction n as [|n IH]; intros a out Hd Hne.
  - simpl in Hd. congruence.
  - change (draw_at (S n) σ a) with
      (match σ !! a with
       | Some (Plain T D v) => Ok (draw_ v)
       | Some (Model T D obj) => Ok (draw_ obj)
       | Some (ModelRef target) => draw_at n σ target
       | Some (Wrapped d) =>
           match pImpl d with
           | Some p => draw_at n σ p
           | None => Undefined
           end
       | None => Undefined
       end) in Hd.
    change (draw_at (S (S n)) σ a) with
      (match σ !! a with
       | Some (Plain T D v) => Ok (draw_ v)
       | Some (Model T D obj) => Ok (draw_ obj)
       | Some (ModelRef target) => draw_at (S n) σ target
       | Some (Wrapped d) =>
           match pImpl d with
           | Some p => draw_at (S n) σ p
           | None => Undefined
           end
       | None => Undefined
       end).
    destruct (σ !! a) as [[T D v|d|T D obj|target]|]; try exact Hd.
    + destruct (pImpl d) as [p|]; [|exact Hd]. apply IH; assumption.
    + apply IH; assumption.
Qed.

(** ** Wrapping and dispatch in [Drawable] *)

(** In [src/pattern/dp_type_erasure.cpp], a wrapper made from a temporary
    owns a new model that holds the temporary's value, and draws what the
    temporary would have. *)
Lemma Drawable_of_rvalue_draw {T : Type} `{D : Draw T} (obj : T)
    (σ : store) (fuel : nat) :
  exists (d : Drawable) (σ' : store),
    Drawable_of_rvalue obj σ = Ok (d, σ') /\
    σ' = <[fresh_addr σ := Model T D obj]> σ /\
    Drawable_draw (S fuel) σ' d = Ok (draw_ obj).
Proof.
  eexists _, _. split; [reflexivity|]. split; [reflexivity|].
  unfold Drawable_draw. simpl. rewrite lookup_insert_eq. reflexivity.
Qed.

(** A model that holds its object by value draws the same in every store
    that still has it. *)
Lemma Drawable_draw_Model {T : Type} `{D : Draw T} (obj : T)
    (σ : store) (p : addr) (fuel : nat) :
  σ !! p = Some (Model T D obj) ->
  Drawable_draw (S fuel) σ {| pImpl := Some p |} = Ok (draw_ obj).
Proof.
  intros Hp. unfold Drawable_draw. simpl. rewrite Hp. reflexivity.
Qed.

(** A model that holds a reference to a named shape draws that shape. *)
Lemma Drawable_draw_ModelRef (σ : store) (p a : addr) (v : shape) (fuel : nat) :
  σ !! p = Some (ModelRef a) ->
  names σ a v ->
  Drawable_draw (S (S fuel)) σ {| pImpl := Some p |} = Ok (shape_output v).
Proof.
  intros Hp Ha. unfold Drawable_draw. cbn [pImpl draw_at].
  rewrite Hp. unfold names in Ha. rewrite Ha. reflexivity.
Qed.

(** An allocation keeps every named shape and every wrapper's model. *)
Lemma names_alloc (σ : store) (a : addr) (v : shape) (new : object) :
  names σ a v -> names (<[fresh_addr σ := new]> σ) a v.
Proof. unfold names. apply lookup_alloc. Qed.

Lemma holds_alloc (σ : store) (d : Drawable) (v : shape) (new : object) :
  holds σ d v -> holds (<[fresh_addr σ := new]> σ) d v.
Proof.
  intros (p & a & Hd & Hp & Ha). exists p, a. split; [exact Hd|]. split.
  - apply lookup_alloc, Hp.
  - apply names_alloc, Ha.
Qed.

(** The shapes declared are there, under the addresses returned, and every
    object that was there before still is. *)
Lemma declare_all_names (vs : list shape) :
  forall σ : store,
    exists (objs : list addr) (σ' : store),
      declare_all vs σ = Ok (objs, σ') /\
      Forall2 (names σ') objs vs /\
      forall (a : addr) (o : object), σ !! a = Some o -> σ' !! a = Some o.
Proof.
  induction vs as [|v vs IH]; intros σ.
  - exists [], σ. split; [reflexivity|]. split; [constructor|auto].
  - set (a := fresh_addr σ).
    set (σ1 := <[a := Plain (shape_type v) (shape_ops v) (shape_value v)]> σ).
    destruct (IH σ1) as (objs & σ' & Hrun & Hall & Hframe).
    exists (a :: objs), σ'. split; [|split].
    + cbn [declare_all]. unfold bind, declare. fold a. fold σ1.
      rewrite Hrun. reflexivity.
    + constructor; [|exact Hall].
      apply Hframe. unfold σ1. apply lookup_insert_eq.
    + intros b o Hb. apply Hframe. unfold σ1, a. apply lookup_alloc, Hb.
Qed.

Lemma emplace_all_holds (objs : list addr) :
  forall (vs : list shape) (shapes0 : list Drawable) (vs0 : list shape) (σ : store),
    Forall2 (holds σ) shapes0 vs0 ->
    Forall2 (names σ) objs vs ->
    exists (shapes : list Drawable) (σ' : store),
      emplace_all objs shapes0 σ = Ok (shapes, σ') /\
      Forall2 (holds σ') shapes (vs0 ++ vs).
Proof.
  induction objs as [|obj objs IH]; intros vs shapes0 vs0 σ H0 Hn.
  - inversion Hn; subst. exists shapes0, σ. split; [reflexivity|].
    rewrite app_nil_r. exact H0.
  - inversion Hn as [|? v ? vs' Hobj Hrest]; subst.
    set (σ1 := <[fresh_addr σ := ModelRef obj]> σ).
    set (d := {| pImpl := Some (fresh_addr σ) |}).
    destruct (IH vs' (shapes0 ++ [d]) (vs0 ++ [v]) σ1) as (shapes & σ' & Hrun & Hall).
    { apply Forall2_app.
      - eapply Forall2_impl; [exact H0|]. intros d' v' Hh. apply holds_alloc, Hh.
      - constructor; [|constructor]. exists (fresh_addr σ), obj.
        split; [reflexivity|]. split; [apply lookup_insert_eq|].
        apply names_alloc, Hobj. }
    { eapply Forall2_impl; [exact Hrest|]. intros a' v' Ha. apply names_alloc, Ha. }
    exists shapes, σ'. split; [exact Hrun|].
    rewrite <- app_assoc in Hall. exact Hall.
Qed.

Lemma draw_all_holds (σ : store) (fuel : nat) (shapes : list Drawable) (vs : list shape) :
  Forall2 (holds σ) shapes vs ->
  draw_all (S (S fuel)) σ shapes = Ok (map shape_output vs).
Proof.
  induction 1 as [|d v shapes vs (p & a & Hd & Hp & Ha) _ IH].
  - reflexivity.
  - cbn [draw_all map]. rewrite IH. destruct d as [q]. cbn [pImpl] in Hd. subst q.
    rewrite (Drawable_draw_ModelRef σ p a v fuel Hp Ha). reflexivity.
Qed.

(** In [src/cpp/dp_type_erasure.cpp], the drawing loop over a vector built
    by N [emplace_back] calls on N named shapes makes N [draw] calls, the
    i-th on the i-th shape appended. *)
Lemma draw_all_emplaced (vs : list shape) (σ : store) (fuel : nat) :
  exists (shapes : list Drawable) (σ' : store),
    emplace_named vs σ = Ok (shapes, σ') /\
    length shapes = length vs /\
    draw_all (S (S fuel)) σ' shapes = Ok (map shape_output vs).
Proof.
  destruct (declare_all_names vs σ) as (objs & σ1 & Hdecl & Hnames & _).
  destruct (emplace_all_holds objs vs [] [] σ1) as (shapes & σ' & Hrun & Hall);
    [constructor|exact Hnames|].
  exists shapes, σ'. split; [|split].
  - unfold emplace_named, bind. rewrite Hdecl. exact Hrun.
  - apply (Forall2_length _ _ _ Hall).
  - apply draw_all_holds, Hall.
Qed.

(** Lines 192-198 of [main] in [src/pattern/dp_type_erasure.cpp]: the three
    wrappers draw the three shapes they were made from. *)
Example main_shapes_output (fuel : nat) :
  exists σ' : store,
    main_shapes (S fuel) ∅ =
      Ok (Ok [[Str "Drawing circle with radius: "; Dbl 5; Endl];
              [Str "Drawing rectangle: "; Dbl 3; Str "x"; Dbl 4; Endl];
              [Str "Drawing triangle: base="; Dbl 6; Str ", height="; Dbl 4; Endl]],
          σ').
Proof. eexists. vm_compute. reflexivity. Qed.

(** C7. A circle of radius 5 and a rectangle 3 by 4, appended in that order
    to an empty vector of [Drawable] in any store and then traversed by the
    drawing loop, give exactly two [draw] calls: first [Circle::draw] on the
    circle, then [Rectangle::draw] on the rectangle.  The two shapes are
    named objects, which is how [src/cpp/dp_type_erasure.cpp] can wrap
    them. *)
Theorem C7_circle_then_rectangle (σ : store) (fuel : nat) :
  exists (shapes : list Drawable) (σ' : store),
    circle_then_rectangle σ = Ok (shapes, σ') /\
    length shapes = 2%nat /\
    draw_all (S (S fuel)) σ' shapes =
      Ok [Circle_draw {| Circle_radius := 5 |};
          Rectangle_draw {| Rectangle_width := 3; Rectangle_height := 4 |}] /\
    draw_all (S (S fuel)) σ' shapes =
      Ok [[Str "Drawing circle with radius: "; Dbl 5; Endl];
          [Str "Drawing rectangle: "; Dbl 3; Str "x"; Dbl 4; Endl]].
Proof.
  eexists _, _. split; [reflexivity|]. split; [reflexivity|].
  set (vc := Shape Circle _ {| Circle_radius := 5 |}).
  set (vr := Shape Rectangle _ {| Rectangle_width := 3; Rectangle_height := 4 |}).
  set (c := fresh_addr σ).
  set (σ1 := <[c := Plain Circle _ {| Circle_radius := 5 |}]> σ).
  set (r := fresh_addr σ1).
  set (σ2 := <[r := Plain Rectangle _
                      {| Rectangle_width := 3; Rectangle_height := 4 |}]> σ1).
  set (σ3 := <[fresh_addr σ2 := ModelRef c]> σ2).
  set (σ4 := <[fresh_addr σ3 := ModelRef r]> σ3).
  assert (Hc : names σ2 c vc).
  { unfold σ2, r. apply names_alloc. unfold names, σ1. apply lookup_insert_eq. }
  assert (Hr : names σ2 r vr).
  { unfold names, σ2. apply lookup_insert_eq. }
  assert (H1 : holds σ4 {| pImpl := Some (fresh_addr σ2) |} vc).
  { unfold σ4. apply holds_alloc. exists (fresh_addr σ2), c.
    split; [reflexivity|]. split; [unfold σ3; apply lookup_insert_eq|].
    unfold σ3. apply names_alloc, Hc. }
  assert (H2 : holds σ4 {| pImpl := Some (fresh_addr σ3) |} vr).
  { exists (fresh_addr σ3), r.
    split; [reflexivity|]. split; [unfold σ4; apply lookup_insert_eq|].
    unfold σ4. apply names_alloc. unfold σ3. apply names_alloc, Hr. }
  assert (E : draw_all (S (S fuel)) σ4
                ([] ++ [{| pImpl := Some (fresh_addr σ2) |}]
                    ++ [{| pImpl := Some (fresh_addr σ3) |}])
              = Ok [Circle_draw {| Circle_radius := 5 |};
                    Rectangle_draw {| Rectangle_width := 3; Rectangle_height := 4 |}]).
  { apply (draw_all_holds σ4 fuel _ [vc; vr]).
    cbn [app]. constructor; [exact H1|]. constructor; [exact H2|constructor]. }
  split; exact E.
Qed.

(** ** Wrapping and dispatch in [ModernTypeEraser] *)

(** [print] through the eraser is [print] on the value wrapped: the first
    capture is made from the parameter as passed. *)
Lemma ModernTypeEraser_print_ctor {T : Type} `{E : Erasable T} (v : T) :
  ModernTypeEraser_print (ModernTypeEraser_ctor v) = print_ v.
Proof. reflexivity. Qed.

(** [calculate] through the eraser runs on the parameter after one move. *)
Lemma ModernTypeEraser_calculate_ctor {T : Type} `{E : Erasable T} (v : T) (x : int) :
  ModernTypeEraser_calculate (ModernTypeEraser_ctor v) x =
    calculate_ (moved_from v) x.
Proof. reflexivity. Qed.

(** For a type whose move constructor keeps the source's value, every
    capability through the eraser is the capability on the value wrapped. *)
Lemma ModernTypeEraser_ctor_faithful {T : Type} `{E : Erasable T} (v : T) :
  move_keeps_value T ->
  ModernTypeEraser_print (ModernTypeEraser_ctor v) = print_ v /\
  (forall x, ModernTypeEraser_calculate (ModernTypeEraser_ctor v) x = calculate_ v x) /\
  ModernTypeEraser_getTypeName (ModernTypeEraser_ctor v) = type_name /\
  ModernTypeEraser_isValid (ModernTypeEraser_ctor v) = true.
Proof.
  intros Hkeep. repeat split.
  intros x. rewrite ModernTypeEraser_calculate_ctor, Hkeep. reflexivity.
Qed.

Lemma ModernTypeEraser_ctor_faithful_witness :
  move_keeps_value Calculator /\
  ModernTypeEraser_print (ModernTypeEraser_ctor {| multiplier_ := 5 |})
    = print_ {| multiplier_ := 5 |} /\
  (forall x, ModernTypeEraser_calculate (ModernTypeEraser_ctor {| multiplier_ := 5 |}) x
             = calculate_ {| multiplier_ := 5 |} x) /\
  ModernTypeEraser_getTypeName (ModernTypeEraser_ctor {| multiplier_ := 5 |})
    = type_name (T := Calculator) /\
  ModernTypeEraser_isValid (ModernTypeEraser_ctor {| multiplier_ := 5 |}) = true.
Proof.
  split; [intros v; reflexivity|].
  apply (ModernTypeEraser_ctor_faithful {| multiplier_ := 5 |}).
  intros v. reflexivity.
Defined.

(** A copy has the original's closures and answers every capability as the
    original does. *)
Lemma ModernTypeEraser_copy_same (e : ModernTypeEraser) (c : capability) :
  ModernTypeEraser_copy e = e /\
  fst (invoke c (ModernTypeEraser_copy e)) = fst (invoke c e).
Proof.
  assert (H : ModernTypeEraser_copy e = e) by (destruct e; reflexivity).
  rewrite H. split; reflexivity.
Qed.

(** Lines 421-432 and 464-476 of [main]: the three erasers, the
    function-based one and the clone. *)
Example main_erasers_output :
  let calcEraser := ModernTypeEraser_ctor {| multiplier_ := 5 |} in
  let addEraser := ModernTypeEraser_ctor {| addend_ := 10 |} in
  let multEraser := ModernTypeEraser_ctor {| factor_ := 3 |} in
  let funcEraser := FunctionTypeEraser_ctor {| addend_ := 15 |} in
  let clonedEraser := fst (ModernTypeEraser_clone calcEraser) in
  ModernTypeEraser_print calcEraser
    = [Str "Calculator with multiplier: "; Int 5; Endl] /\
  ModernTypeEraser_calculate calcEraser 7 = Some 35 /\
  ModernTypeEraser_print addEraser = [Str "Adder with addend: "; Int 10; Endl] /\
  ModernTypeEraser_calculate addEraser 7 = Some 17 /\
  ModernTypeEraser_print multEraser = [Str "Multiplier with factor: "; Int 3; Endl] /\
  ModernTypeEraser_calculate multEraser 7 = Some 21 /\
  FunctionTypeEraser_print funcEraser = [Str "Adder with addend: "; Int 15; Endl] /\
  FunctionTypeEraser_calculate funcEraser 5 = Some 20 /\
  ModernTypeEraser_print clonedEraser
    = [Str "Calculator with multiplier: "; Int 5; Endl] /\
  ModernTypeEraser_calculate clonedEraser 3 = Some 15 /\
  ModernTypeEraser_getTypeName clonedEraser = ModernTypeEraser_getTypeName calcEraser.
Proof. repeat split. Qed.

(** C2. A [Calculator] constructed with multiplier 5, wrapped in a
    [ModernTypeEraser]: its [calculate] capability invoked with 7 returns
    35. *)
Theorem C2_calculator_five_times_seven :
  ModernTypeEraser_calculate (ModernTypeEraser_ctor {| multiplier_ := 5 |}) 7
  = Some 35.
Proof. reflexivity. Qed.

(** ** The container *)

Lemma execute_each_app (xs ys : list IOperation) :
  snd (execute_each (xs ++ ys)) = snd (execute_each xs) ++ snd (execute_each ys).
Proof.
  induction xs as [|op xs IH]; simpl.
  - reflexivity.
  - destruct (IOperation_execute op) as [op' out].
    destruct (execute_each (xs ++ ys)) as [r1 o1].
    destruct (execute_each xs) as [r2 o2].
    simpl in *. rewrite IH. reflexivity.
Qed.

(** [add] calls append, in the order they are made. *)
Lemma add_all_operations (vs : list operand) (c : TypeErasureContainer) :
  operations_ (add_all vs c) =
    operations_ c ++
    map (fun v => OperationWrapper (operand_type v) (operand_ops v) (operand_value v)) vs.
Proof.
  revert c. induction vs as [|v vs IH]; intros c; simpl.
  - rewrite app_nil_r. reflexivity.
  - unfold add_all in IH. rewrite IH. simpl. rewrite <- app_assoc. reflexivity.
Qed.

Lemma execute_each_wrapped (vs : list operand) :
  snd (execute_each
         (map (fun v => OperationWrapper (operand_type v) (operand_ops v)
                          (operand_value v)) vs))
  = map operand_output vs.
Proof.
  induction vs as [|v vs IH]; simpl.
  - reflexivity.
  - unfold operand_output at 1.
    destruct (execute_ (operand_value v)) as [v' out].
    destruct (execute_each _) as [r o]. simpl in *. rewrite IH. reflexivity.
Qed.

(** C3. For every sequence of N values handed to [add] one after the other,
    starting from an empty container, the container holds N elements and one
    [executeAll] makes exactly N [execute] calls, the i-th of them on the
    i-th value added: no element is skipped, repeated or moved. *)
Theorem C3_executeAll_in_insertion_order (vs : list operand) :
  let c := add_all vs TypeErasureContainer_empty in
  TypeErasureContainer_size c = length vs /\
  length (snd (TypeErasureContainer_executeAll c)) = length vs /\
  snd (TypeErasureContainer_executeAll c) = map operand_output vs /\
  forall (i : nat) (v : operand),
    vs !! i = Some v ->
    snd (TypeErasureContainer_executeAll c) !! i = Some (operand_output v).
Proof.
  intros c.
  assert (Hops : operations_ c =
            map (fun v => OperationWrapper (operand_type v) (operand_ops v)
                            (operand_value v)) vs).
  { unfold c. rewrite add_all_operations. reflexivity. }
  assert (Hout : snd (TypeErasureContainer_executeAll c) = map operand_output vs).
  { unfold TypeErasureContainer_executeAll.
    pose proof (execute_each_wrapped vs) as H. rewrite <- Hops in H.
    destruct (execute_each (operations_ c)) as [ops outs]. exact H. }
  split; [|split; [|split]].
  - unfold TypeErasureContainer_size. rewrite Hops. apply length_map.
  - rewrite Hout. apply length_map.
  - exact Hout.
  - intros i v Hi. rewrite Hout.
    change (map operand_output vs) with (operand_output <$> vs).
    rewrite list_lookup_fmap, Hi. reflexivity.
Qed.

(** Lines 446-452 of [main]: three operations added, then executed. *)
Example main_container_output :
  let container :=
    TypeErasureContainer_add {| message_ := "Another message" |}
      (TypeErasureContainer_add {| value_ := 42 |}
         (TypeErasureContainer_add {| message_ := "Hello, Type Erasure!" |}
            TypeErasureContainer_empty)) in
  TypeErasureContainer_size container = 3%nat /\
  snd (TypeErasureContainer_executeAll container) =
    [[Str "Printing: "; Str "Hello, Type Erasure!"; Endl];
     [Str "Calculating with value: "; Int 42; Endl];
     [Str "Printing: "; Str "Another message"; Endl]].
Proof. split; reflexivity. Qed.

(** ** Wrapping a value whose move constructor empties its source *)

(** C1, at a failing input.  Called on a [Tally] of two entries,
    [calculate(7)] returns 9 and [print()] inserts the count 2.  Through a
    [ModernTypeEraser] made from that value, [print] still reaches the two
    entries, but [calculate(7)] returns 7: [calculateFunc_] captured the
    constructor's parameter after [printFunc_] had moved from it.
    [FunctionTypeEraser] has the same constructor and the same result. *)
Theorem C1_calculate_runs_on_moved_from_value :
  let tally := {| entries_ := [10; 20] |} in
  calculate_ tally 7 = Some 9 /\
  ModernTypeEraser_calculate (ModernTypeEraser_ctor tally) 7 = Some 7 /\
  ModernTypeEraser_print (ModernTypeEraser_ctor tally) = print_ tally /\
  FunctionTypeEraser_calculate (FunctionTypeEraser_ctor tally) 7 = Some 7.
Proof. repeat split. Qed.

(** ** Copying a [Drawable] *)

(** A clone of a model that holds a value is a new model, at an address of
    its own, holding the same value: the duplicate the text of [clone] asks
    for. *)
Lemma Drawable_copy_Model {T : Type} `{D : Draw T} (obj : T) (σ : store) (p : addr) :
  σ !! p = Some (Model T D obj) ->
  Drawable_copy {| pImpl := Some p |} σ =
    Ok ({| pImpl := Some (fresh_addr σ) |},
        <[fresh_addr σ := Model T D obj]> σ) /\
  fresh_addr σ <> p.
Proof.
  intros Hp. split.
  - unfold Drawable_copy, bind, Concept_clone. simpl. rewrite Hp. reflexivity.
  - intros E. rewrite <- E, fresh_addr_lookup in Hp. discriminate.
Qed.

(** A clone of a model that holds a reference holds the same reference. *)
Lemma Drawable_copy_ModelRef (σ : store) (p target : addr) :
  σ !! p = Some (ModelRef target) ->
  Drawable_copy {| pImpl := Some p |} σ =
    Ok ({| pImpl := Some (fresh_addr σ) |},
        <[fresh_addr σ := ModelRef target]> σ).
Proof.
  intros Hp. unfold Drawable_copy, bind, Concept_clone. simpl.
  rewrite Hp. reflexivity.
Qed.

(** Lines 204-220 of [main] in [src/pattern/dp_type_erasure.cpp]: the three
    callables called on 5. *)
Example main_functions_output :
  outcome (main_functions ∅) = Ok [Some 10; Some 15; Some 15].
Proof. vm_compute. reflexivity. Qed.

(** C4, at failing inputs.
    - Lines 259-267 of [main].  After
      [Drawable original = Circle(10.0); Drawable copy = original;
       Drawable moved = std::move(original);]
      the model [copy] owns is bound to the object [original] itself, not to
      a circle of its own; [original] having been moved from, [copy.draw()]
      reaches its null [pImpl], while [moved.draw()] draws the circle.
    - For a wrapper [a] of a named circle [c], the copy constructor gives a
      wrapper [b] whose model refers to that same circle.
    - For a [Callable a] made from a named counting lambda and its copy [b]
      made by the copy constructor, [a(5)] returns 5 when [b] was not
      called and 10 after [b(5)]: a call on the copy changes what the
      original returns. *)
Theorem C4_copy_shares_the_original :
  (exists (l : copy_move_locals) (σ : store),
     main_copy_move ∅ = Ok (l, σ) /\
     model_of σ (l_copy l) = Some (ModelRef (l_original l)) /\
     (forall fuel, draw_at (S (S (S fuel))) σ (l_copy l) = Undefined) /\
     (forall fuel, draw_at (S (S fuel)) σ (l_moved l)
                   = Ok (Circle_draw {| Circle_radius := 10 |}))) /\
  (exists (c a b : addr) (σ : store),
     copy_of_lvalue_wrapper ∅ = Ok (c, a, b, σ) /\
     model_of σ a = Some (ModelRef c) /\
     model_of σ b = Some (ModelRef c)) /\
  (outcome (counter_and_copy false ∅) = Ok (Some 5) /\
   outcome (counter_and_copy true ∅) = Ok (Some 10)).
Proof.
  split; [|split].
  - eexists _, _. split; [vm_compute; reflexivity|].
    split; [vm_compute; reflexivity|].
    split; intros fuel; vm_compute; reflexivity.
  - eexists _, _, _, _. split; [vm_compute; reflexivity|].
    split; vm_compute; reflexivity.
  - split; vm_compute; reflexivity.
Qed.

(** ** Moving *)

Lemma draw_at_fuel_le (σ : store) (n m : nat) (a : addr) (out : result output) :
  (n <= m)%nat -> draw_at n σ a = out -> out <> OutOfFuel -> draw_at m σ a = out.
Proof.
  induction 1 as [|m Hle IH]; intros Hd Hne.
  - exact Hd.
  - apply draw_at_fuel_mono; [apply IH|]; assumption.
Qed.

Section MoveFromNamed.

(** The [Drawable] named [x] owns the model at [p] and is moved from. *)
Variables (σ : store) (x p : addr).
Hypothesis Hx : σ !! x = Some (Wrapped {| pImpl := Some p |}).

Let σ' : store := <[x := Wrapped {| pImpl := None |}]> σ.

(** A walk that ends either does not pass through [x], or reaches the model
    at [p] again with less fuel. *)
Lemma draw_at_avoids_source (n : nat) :
  forall (a : addr) (out : result output),
    draw_at n σ a = out -> out <> OutOfFuel ->
    draw_at n σ' a = out \/ exists k, (k < n)%nat /\ draw_at k σ p = out.
Proof using Hx.
  induction n as [|n IH]; intros a out Hd Hne.
  - cbn [draw_at] in Hd. congruence.
  - destruct (decide (a = x)) as [->|Hax].
    + right. exists n. split; [lia|].
      cbn [draw_at] in Hd. rewrite Hx in Hd. exact Hd.
    + cbn [draw_at] in Hd |- *. unfold σ'.
      rewrite lookup_insert_ne by congruence.
      destruct (σ !! a) as [[T D v|d|T D obj|target]|]; try (left; exact Hd).
      * destruct (pImpl d) as [q|]; [|left; exact Hd].
        destruct (IH q out Hd Hne) as [H|(k & Hk & H)]; [left; exact H|].
        right. exists k. split; [lia|exact H].
      * destruct (IH target out Hd Hne) as [H|(k & Hk & H)]; [left; exact H|].
        right. exists k. split; [lia|exact H].
Qed.

(** What the model drew for the source it draws for the destination. *)
Lemma draw_at_moved (n : nat) :
  forall out : result output,
    draw_at n σ p = out -> out <> OutOfFuel -> draw_at n σ' p = out.
Proof using Hx.
  induction n as [n IH] using lt_wf_ind. intros out Hd Hne.
  destruct (draw_at_avoids_source n p out Hd Hne) as [H|(k & Hk & H)].
  - exact H.
  - apply (draw_at_fuel_le σ' k n); [lia| |exact Hne].
    apply IH; assumption.
Qed.

End MoveFromNamed.

(** C5. Moving an erased value hands the stored value over and empties the
    source.
    - [Drawable]: the destination owns the very model the source owned, the
      source's [pImpl] is null, no model is made (the store is not written
      to), and [draw] on the destination is [draw] on the source before.
      When the source is a named object the store changes at its own
      address only, and whatever [draw] gave on it before the move, [draw]
      gives on the destination after.  Move assignment between two named
      objects does the same and deletes the model the destination owned,
      nothing else; an object move-assigned to itself is left as it was,
      and so is the store.
    - [ModernTypeEraser]: the destination is what the source was, member by
      member: it has the source's closures, captures included, and answers
      every capability as the source did; [isValid()] is false on the
      source.  Move assignment between two erasers does the same: the
      destination is what the source was and the source is left empty. *)
Theorem C5_move_transfers_ownership :
  (forall d : Drawable,
     pImpl (fst (Drawable_move d)) = pImpl d /\
     pImpl (snd (Drawable_move d)) = None /\
     forall (fuel : nat) (σ : store),
       Drawable_draw fuel σ (fst (Drawable_move d)) = Drawable_draw fuel σ d) /\
  (forall (σ : store) (x : addr) (d : Drawable),
     σ !! x = Some (Wrapped d) ->
     let σ' : store := <[x := Wrapped {| pImpl := None |}]> σ in
     Drawable_move_from x σ = Ok ({| pImpl := pImpl d |}, σ') /\
     (forall a : addr, a <> x -> σ' !! a = σ !! a) /\
     forall (fuel : nat) (out : result output),
       Drawable_draw fuel σ d = out -> out <> OutOfFuel ->
       Drawable_draw fuel σ' {| pImpl := pImpl d |} = out) /\
  (forall (σ : store) (x y : addr) (dx dy : Drawable),
     σ !! x = Some (Wrapped dx) -> σ !! y = Some (Wrapped dy) -> x <> y ->
     (forall q : addr, pImpl dx = Some q ->
        exists m : object, σ !! q = Some m /\ is_Model m = true) ->
     exists σ' : store,
       Drawable_move_assign x y σ = Ok (tt, σ') /\
       σ' !! x = Some (Wrapped {| pImpl := pImpl dy |}) /\
       σ' !! y = Some (Wrapped {| pImpl := None |}) /\
       (forall q : addr, pImpl dx = Some q -> σ' !! q = None) /\
       (forall a : addr,
          a <> x -> a <> y -> pImpl dx <> Some a -> σ' !! a = σ !! a)) /\
  (forall (σ : store) (x : addr) (d : Drawable),
     σ !! x = Some (Wrapped d) -> Drawable_move_assign x x σ = Ok (tt, σ)) /\
  (forall e : ModernTypeEraser,
     let dst := fst (ModernTypeEraser_move e) in
     let src := snd (ModernTypeEraser_move e) in
     dst = e /\
     printFunc_ dst = printFunc_ e /\
     calculateFunc_ dst = calculateFunc_ e /\
     cloneFunc_ dst = cloneFunc_ e /\
     (forall c : capability, fst (invoke c dst) = fst (invoke c e)) /\
     ModernTypeEraser_print dst = ModernTypeEraser_print e /\
     (forall x, ModernTypeEraser_calculate dst x = ModernTypeEraser_calculate e x) /\
     ModernTypeEraser_getTypeName dst = ModernTypeEraser_getTypeName e /\
     ModernTypeEraser_isValid dst = ModernTypeEraser_isValid e /\
     ModernTypeEraser_isValid src = false) /\
  (forall this e : ModernTypeEraser,
     fst (ModernTypeEraser_move_assign this e) = e /\
     snd (ModernTypeEraser_move_assign this e) = ModernTypeEraser_default /\
     ModernTypeEraser_isValid (snd (ModernTypeEraser_move_assign this e)) = false).
Proof.
  split; [|split; [|split; [|split; [|split]]]].
  - intros d. repeat split.
  - intros σ x d Hx σ'. split; [|split].
    + unfold Drawable_move_from. rewrite Hx. reflexivity.
    + intros a Ha. unfold σ'. apply lookup_insert_ne. congruence.
    + intros fuel out Hd Hne. destruct d as [[p|]].
      * unfold Drawable_draw in *. cbn [pImpl] in *.
        apply (draw_at_moved σ x p Hx); assumption.
      * exact Hd.
  - intros σ x y dx dy Hx Hy Hxy Hold.
    assert (Hx1 : <[y := Wrapped {| pImpl := None |}]> σ !! x = Some (Wrapped dx)).
    { rewrite lookup_insert_ne by congruence. exact Hx. }
    eexists. split.
    { unfold Drawable_move_assign. rewrite Hy. cbv zeta. rewrite Hx1. reflexivity. }
    destruct (pImpl dx) as [q|] eqn:Hq.
    + destruct (Hold q eq_refl) as (m & Hm & HM).
      assert (Hqx : q <> x).
      { intros ->. rewrite Hx in Hm. injection Hm as <-. discriminate. }
      assert (Hqy : q <> y).
      { intros ->. rewrite Hy in Hm. injection Hm as <-. discriminate. }
      split; [|split; [|split]].
      * rewrite lookup_delete_ne by congruence. apply lookup_insert_eq.
      * rewrite lookup_delete_ne by congruence.
        rewrite lookup_insert_ne by congruence. apply lookup_insert_eq.
      * intros q' [= <-]. apply lookup_delete_eq.
      * intros a Hax Hay Haq.
        rewrite lookup_delete_ne by congruence.
        rewrite !lookup_insert_ne by congruence. reflexivity.
    + split; [|split; [|split]].
      * apply lookup_insert_eq.
      * rewrite lookup_insert_ne by congruence. apply lookup_insert_eq.
      * intros q' [=].
      * intros a Hax Hay _. rewrite !lookup_insert_ne by congruence. reflexivity.
  - intros σ x d Hx. unfold Drawable_move_assign. rewrite Hx. cbv zeta.
    rewrite lookup_insert_eq. cbn [pImpl].
    rewrite insert_insert_eq. destruct d as [p]. cbn [pImpl].
    rewrite (insert_id σ x _ Hx). reflexivity.
  - intros e dst src.
    assert (He : dst = e) by (destruct e; reflexivity).
    rewrite He. repeat split.
  - intros this e. split; [destruct e; reflexivity|]. split; reflexivity.
Qed.

(** Two wrappers [a] and [b], of a named circle and of a named rectangle:
    after [a = std::move(b);] the wrapper [a] draws the rectangle, [b] is
    null and the model [a] owned is gone; after [a = std::move(a);] instead,
    [a] still draws the circle. *)
Example Drawable_move_assign_named :
  let circle := 0%nat in
  let rectangle := 1%nat in
  let a := 2%nat in
  let b := 3%nat in
  let σ : store :=
    <[b := Wrapped {| pImpl := Some 5%nat |}]>
      (<[a := Wrapped {| pImpl := Some 4%nat |}]>
         (<[5%nat := ModelRef rectangle]>
            (<[4%nat := ModelRef circle]>
               (<[rectangle := Plain Rectangle _
                                 {| Rectangle_width := 3; Rectangle_height := 4 |}]>
                  (<[circle := Plain Circle _ {| Circle_radius := 10 |}]> ∅))))) in
  (exists σ' : store,
     Drawable_move_assign a b σ = Ok (tt, σ') /\
     draw_at 3 σ' a
       = Ok (Rectangle_draw {| Rectangle_width := 3; Rectangle_height := 4 |}) /\
     draw_at 3 σ' b = Undefined /\
     σ' !! 4%nat = None) /\
  (exists σ' : store,
     Drawable_move_assign a a σ = Ok (tt, σ') /\
     draw_at 3 σ' a = Ok (Circle_draw {| Circle_radius := 10 |}) /\
     σ' !! 4%nat = Some (ModelRef circle)).
Proof.
  cbv zeta. split.
  - eexists. split; [vm_compute; reflexivity|]. repeat split; vm_compute; reflexivity.
  - eexists. split; [vm_compute; reflexivity|]. repeat split; vm_compute; reflexivity.
Qed.

(** ** Empty and moved-from erasers *)

(** What a move leaves of a [ModernTypeEraser] is the default-constructed
    eraser. *)
Lemma ModernTypeEraser_moved_from_is_default (e : ModernTypeEraser) :
  snd (ModernTypeEraser_move e) = ModernTypeEraser_default.
Proof. reflexivity. Qed.

(** C6, as stated, fails: on a default-constructed [ModernTypeEraser], which
    is not valid, [calculate(7)] is defined and returns the fallback 0, and
    [print()] is defined and inserts nothing. *)
Lemma C6_empty_calculate_returns_zero :
  ModernTypeEraser_isValid ModernTypeEraser_default = false /\
  ModernTypeEraser_calculate ModernTypeEraser_default 7 = Some 0 /\
  ModernTypeEraser_print ModernTypeEraser_default = [].
Proof. repeat split. Qed.

(** C6, amended.  [ModernTypeEraser] and [FunctionTypeEraser] test each
    [std::function] before calling it: on a default-constructed or
    moved-from eraser [print] inserts nothing, [calculate] returns 0,
    [clone] returns an empty eraser and leaves the eraser as it is, and
    [FunctionTypeEraser::getTypeName] returns "Unknown".  [Drawable::draw]
    has no test: on a
    moved-from [Drawable] it dereferences the null [pImpl], which is
    undefined, whatever the store and the fuel. *)
Theorem C6_function_erasers_guard_and_Drawable_does_not :
  (forall e : ModernTypeEraser,
     e = ModernTypeEraser_default \/ (exists e0, e = snd (ModernTypeEraser_move e0)) ->
     ModernTypeEraser_print e = [] /\
     (forall x, ModernTypeEraser_calculate e x = Some 0) /\
     ModernTypeEraser_clone e = (ModernTypeEraser_default, e) /\
     ModernTypeEraser_isValid e = false) /\
  (forall e0 : FunctionTypeEraser,
     let e := snd (FunctionTypeEraser_move e0) in
     FunctionTypeEraser_print e = [] /\
     (forall x, FunctionTypeEraser_calculate e x = Some 0) /\
     FunctionTypeEraser_getTypeName e = "Unknown") /\
  (forall (d : Drawable) (fuel : nat) (σ : store),
     Drawable_draw fuel σ (snd (Drawable_move d)) = Undefined).
Proof.
  split; [|split].
  - intros e [->|[e0 ->]]; repeat split.
  - intros e0 e. repeat split.
  - intros d fuel σ. reflexivity.
Qed.

(** ** The behaviour set *)

Lemma invoke_behavior (c : capability) (e : ModernTypeEraser) :
  behavior (snd (invoke c e)) = behavior e /\
  typeName_ (snd (invoke c e)) = typeName_ e.
Proof.
  destruct c; cbn [invoke snd]; try (split; reflexivity).
  unfold ModernTypeEraser_clone.
  destruct (cloneFunc_ e) as [[T E v]|] eqn:Hc.
  - unfold behavior. cbn. rewrite Hc. split; reflexivity.
  - split; reflexivity.
Qed.

(** C8. The behaviour set of a constructed erased value does not change when
    its capabilities are invoked.  For a [ModernTypeEraser], after any one
    call and after any sequence of calls of [print], [calculate], [clone],
    [getTypeName] and [isValid], each [std::function] member is bound as it
    was, over the same type with the same operations, and the type name is
    the same; only a captured value can differ.  For an [IOperation],
    [execute] may change [operation_] but leaves the dynamic type, and with
    it every override, as it was.  A call of a [Callable] leaves every model
    as it was; it can change only the callable object a model refers to.
    ([Drawable::draw] reads the store and writes nothing.) *)
Theorem C8_behavior_set_is_immutable :
  (forall (c : capability) (e : ModernTypeEraser),
     behavior (snd (invoke c e)) = behavior e /\
     typeName_ (snd (invoke c e)) = typeName_ e) /\
  (forall (cs : list capability) (e : ModernTypeEraser),
     behavior (invoke_each cs e) = behavior e /\
     typeName_ (invoke_each cs e) = typeName_ e) /\
  (forall op : IOperation,
     IOperation_dynamic_type (fst (IOperation_execute op)) =
     IOperation_dynamic_type op) /\
  (forall (c : Callable) (x : int) (σ σ' : callables) (r : option int),
     Callable_call c x σ = Ok (r, σ') ->
     forall (p : addr) (o : callable_object),
       σ !! p = Some o -> is_model o = true -> σ' !! p = Some o).
Proof.
  split; [exact invoke_behavior|]. split; [|split].
  - intros cs. induction cs as [|c cs IH]; intros e.
    + split; reflexivity.
    + unfold invoke_each in *. cbn [fold_left].
      destruct (IH (snd (invoke c e))) as [Hb Hn].
      destruct (invoke_behavior c e) as [Hb' Hn'].
      split; congruence.
  - intros [T E o]. cbn. destruct (execute_ o). reflexivity.
  - intros c x σ σ' r Hcall p o Hp Hm. unfold Callable_call in Hcall.
    destruct (Callable_pImpl c) as [q|]; [|discriminate].
    destruct (σ !! q) as [[F Inv f|F C func|target]|]; try discriminate.
    + injection Hcall as _ <-. exact Hp.
    + destruct (σ !! target) as [[F Inv f|F C func|target']|] eqn:Ht;
        try discriminate.
      destruct (invoke_ f x) as [f' r'].
      injection Hcall as _ <-.
      rewrite lookup_insert_ne; [exact Hp|].
      intros <-. rewrite Ht in Hp. injection Hp as <-. discriminate.
Qed.

(** ** Erasure checked by [typeid] *)

Section TypeCheckedFacts.

Context {type_info : Type} `{EqDecision type_info}.
Context (value_of : type_info -> Type).

Lemma any_cast_same (t : type_info) (v : value_of t) :
  any_cast value_of t (Some (existT t v)) = Some v.
Proof.
  unfold any_cast. destruct (decide (t = t)) as [e|n]; [|congruence].
  rewrite (proof_irrel e eq_refl). reflexivity.
Qed.

Lemma any_cast_other (T t : type_info) (v : value_of t) :
  T <> t -> any_cast value_of T (Some (existT t v)) = None.
Proof.
  intros Hne. unfold any_cast.
  destruct (decide (t = T)) as [e|n]; [congruence|reflexivity].
Qed.

Lemma BadTypeEraser_ctor_alloc (t : type_info) (v : value_of t) (h : heap value_of) :
  BadTypeEraser_ctor value_of t v h =
    ({| data_ := Some (fresh (dom h)); type_ := Some t |},
     <[fresh (dom h) := existT t v]> h) /\
  h !! fresh (dom h) = None.
Proof.
  split; [reflexivity|].
  unfold heap in *. apply (not_elem_of_dom (D := gset addr)), is_fresh.
Qed.

(** C10. For a value [v] of type [t] stored in a type-checked eraser and a
    requested type [T]: [BadTypeEraser::get<T>] returns the non-null pointer
    to the stored value exactly when [T] is [t], and [nullptr] on any other
    [T] and on a default-constructed eraser; [AnyTypeEraser::get<T>] does the
    same, and [hasValue] is true exactly when a value is stored.  [get] has
    no effect: it is a function of the eraser, and the allocation made by
    the constructor is the only change to the free store. *)
Theorem C10_get_checks_the_stored_type
    (T t : type_info) (v : value_of t) (h : heap value_of) :
  let e := fst (BadTypeEraser_ctor value_of t v h) in
  let h' := snd (BadTypeEraser_ctor value_of t v h) in
  let a := AnyTypeEraser_ctor value_of t v in
  (exists p : addr,
     data_ e = Some p /\
     h' !! p = Some (existT t v) /\
     (forall (q : addr) (x : dyn value_of), h !! q = Some x -> h' !! q = Some x) /\
     BadTypeEraser_get t e = Some p /\
     (is_Some (BadTypeEraser_get T e) <-> T = t) /\
     (T <> t -> BadTypeEraser_get T e = None)) /\
  BadTypeEraser_get T BadTypeEraser_default = None /\
  AnyTypeEraser_get value_of t a = Some v /\
  (is_Some (AnyTypeEraser_get value_of T a) <-> T = t) /\
  (T <> t -> AnyTypeEraser_get value_of T a = None) /\
  AnyTypeEraser_get value_of T (AnyTypeEraser_default value_of) = None /\
  AnyTypeEraser_hasValue a = true /\
  AnyTypeEraser_hasValue (AnyTypeEraser_default value_of) = false /\
  (forall e' : AnyTypeEraser value_of,
     AnyTypeEraser_hasValue e' = true <-> exists d, any_data_ value_of e' = Some d).
Proof.
  intros e h' a.
  destruct (BadTypeEraser_ctor_alloc t v h) as [Hctor Hfresh].
  subst e h'. rewrite Hctor. cbn [fst snd].
  split; [|split; [|split; [|split; [|split; [|split; [|split; [|split]]]]]]].
  - exists (fresh (dom h)). unfold heap in *.
    split; [reflexivity|]. split; [apply lookup_insert_eq|]. split; [|split; [|split]].
    + intros q x Hq. rewrite lookup_insert_ne; [exact Hq|].
      intros <-. rewrite Hfresh in Hq. discriminate.
    + unfold BadTypeEraser_get. cbn. rewrite decide_True by reflexivity. reflexivity.
    + unfold BadTypeEraser_get. cbn. destruct (decide (t = T)) as [<-|Hne].
      * split; [reflexivity|eauto].
      * split; [intros [? ?]; discriminate|congruence].
    + intros Hne. unfold BadTypeEraser_get. cbn.
      rewrite decide_False by congruence. reflexivity.
  - reflexivity.
  - apply any_cast_same.
  - unfold a, AnyTypeEraser_get, AnyTypeEraser_ctor. cbn [any_data_].
    destruct (decide (T = t)) as [->|Hne].
    + rewrite any_cast_same. split; [reflexivity|eauto].
    + rewrite any_cast_other by exact Hne.
      split; [intros [? ?]; discriminate|congruence].
  - intros Hne. apply any_cast_other, Hne.
  - reflexivity.
  - reflexivity.
  - reflexivity.
  - intros [[d|]]; cbn; split; eauto; try discriminate.
    intros [d [=]].
Qed.

End TypeCheckedFacts.

(** Lines 413-416 and 437-441 of [main]: [BadTypeEraser badEraser(42)]
    answers [get<int>()] with the pointer to 42, and
    [AnyTypeEraser anyEraser{Calculator(4)}] answers [get<Calculator>()] with
    the calculator, on which [calculate(6)] is 24; asked for another type,
    each answers [nullptr]. *)
Example main_type_checked_output :
  let '(badEraser, h) := BadTypeEraser_ctor main_value t_int 42 ∅ in
  let anyEraser := AnyTypeEraser_ctor main_value t_Calculator {| multiplier_ := 4 |} in
  (exists p : addr,
     BadTypeEraser_get t_int badEraser = Some p /\
     h !! p = Some (existT t_int 42)) /\
  BadTypeEraser_get t_double badEraser = None /\
  AnyTypeEraser_get main_value t_Calculator anyEraser = Some {| multiplier_ := 4 |} /\
  option_map (fun calc => Calculator_calculate calc 6)
    (AnyTypeEraser_get main_value t_Calculator anyEraser) = Some (Some 24) /\
  AnyTypeEraser_get main_value t_Adder anyEraser = None.
Proof.
  cbn. split; [|repeat split].
  eexists. split; [reflexivity|]. vm_compute. reflexivity.
Qed.

(** ** What the interface of [ModernTypeEraser] keeps *)

Lemma ModernTypeEraser_copy_eq (e : ModernTypeEraser) : ModernTypeEraser_copy e = e.
Proof. destruct e; reflexivity. Qed.

Lemma coherent_clone (e : ModernTypeEraser) :
  coherent e ->
  coherent (fst (ModernTypeEraser_clone e)) /\
  coherent (snd (ModernTypeEraser_clone e)) /\
  ModernTypeEraser_isValid (fst (ModernTypeEraser_clone e)) = ModernTypeEraser_isValid e /\
  (ModernTypeEraser_getTypeName e
     = ModernTypeEraser_getTypeName (fst (ModernTypeEraser_clone e)) \/
   ModernTypeEraser_getTypeName e = "").
Proof.
  intros [->|(T & E & v1 & v2 & v3 & name & -> & Hname)].
  - split; [left; reflexivity|]. split; [left; reflexivity|].
    split; [reflexivity|]. left; reflexivity.
  - split; [|split; [|split]].
    + right. exists T, E, v3, (moved_from v3), (moved_from (moved_from v3)), type_name.
      split; [reflexivity|]. left; reflexivity.
    + right. exists T, E, v1, v2, (moved_from v3), name.
      split; [reflexivity|exact Hname].
    + reflexivity.
    + exact Hname.
Qed.

(** An eraser move-assigned to itself keeps its three functions, and with
    them every answer of [print], [calculate] and [isValid]; its type name
    is empty, whatever it was. *)
Lemma ModernTypeEraser_self_move_assign_keeps (e : ModernTypeEraser) :
  ModernTypeEraser_print (ModernTypeEraser_self_move_assign e)
    = ModernTypeEraser_print e /\
  (forall x, ModernTypeEraser_calculate (ModernTypeEraser_self_move_assign e) x
             = ModernTypeEraser_calculate e x) /\
  ModernTypeEraser_isValid (ModernTypeEraser_self_move_assign e)
    = ModernTypeEraser_isValid e /\
  fst (ModernTypeEraser_clone (ModernTypeEraser_self_move_assign e))
    = fst (ModernTypeEraser_clone e) /\
  ModernTypeEraser_getTypeName (ModernTypeEraser_self_move_assign e) = "".
Proof.
  split; [reflexivity|]. split; [intros x; reflexivity|].
  split; [reflexivity|]. split; [|reflexivity].
  unfold ModernTypeEraser_clone, ModernTypeEraser_self_move_assign,
    function_self_move_assign.
  cbn [cloneFunc_]. destruct (cloneFunc_ e); reflexivity.
Qed.

(** An eraser made from [Calculator(5)] and then move-assigned to itself,
    [e = std::move(e)]: valid, answering as before, with an empty type name,
    while a clone of it reports the name of the type. *)
Example self_move_assign_loses_the_name :
  let e := ModernTypeEraser_self_move_assign
             (ModernTypeEraser_ctor {| multiplier_ := 5 |}) in
  reachable e /\
  ModernTypeEraser_isValid e = true /\
  ModernTypeEraser_calculate e 7 = Some 35 /\
  ModernTypeEraser_getTypeName e = "" /\
  ModernTypeEraser_getTypeName (fst (ModernTypeEraser_clone e)) = "10Calculator".
Proof.
  cbv zeta. split; [apply reach_self_move_assign, reach_ctor|]. repeat split.
Qed.

(** Every eraser that the constructors, the copy and move operations, a move
    assignment of an eraser to itself included, and [clone] can produce is
    coherent: empty, or with its three functions bound over one type.  So
    an eraser that is not valid is the empty one, with no function bound at
    all, and [clone] gives an eraser that is valid exactly when this one is.
    The type name the eraser reports is the one its clone reports, or it is
    empty (which it is on an empty eraser and after a move assignment to
    itself). *)
Theorem reachable_coherent (e : ModernTypeEraser) :
  reachable e ->
  coherent e /\
  (ModernTypeEraser_isValid e = false -> e = ModernTypeEraser_default) /\
  ModernTypeEraser_isValid (fst (ModernTypeEraser_clone e)) = ModernTypeEraser_isValid e /\
  (ModernTypeEraser_getTypeName e
     = ModernTypeEraser_getTypeName (fst (ModernTypeEraser_clone e)) \/
   ModernTypeEraser_getTypeName e = "").
Proof.
  intros Hr.
  assert (Hc : coherent e).
  { induction Hr as [|T E v|e _ IH|this e _ _ _ IH|e _ IH|e _ IH
                    |this e _ _ _ IH|this e _ _ _ IH|e _ IH|e _ IH|e _ IH].
    - left; reflexivity.
    - right. exists T, E, v, (moved_from v), (moved_from (moved_from v)), type_name.
      split; [reflexivity|]. left; reflexivity.
    - rewrite ModernTypeEraser_copy_eq. exact IH.
    - unfold ModernTypeEraser_copy_assign. rewrite ModernTypeEraser_copy_eq. exact IH.
    - change (fst (ModernTypeEraser_move e)) with (ModernTypeEraser_copy e).
      rewrite ModernTypeEraser_copy_eq. exact IH.
    - left; reflexivity.
    - change (fst (ModernTypeEraser_move_assign this e)) with (ModernTypeEraser_copy e).
      rewrite ModernTypeEraser_copy_eq. exact IH.
    - left; reflexivity.
    - destruct IH as [->|(T & E & v1 & v2 & v3 & name & -> & _)].
      + left; reflexivity.
      + right. exists T, E, v1, v2, v3, "". split; [reflexivity|]. right; reflexivity.
    - apply coherent_clone, IH.
    - apply coherent_clone, IH. }
  split; [exact Hc|]. split.
  - destruct Hc as [->|(T & E & v1 & v2 & v3 & name & -> & _)];
      [reflexivity|discriminate].
  - destruct (coherent_clone e Hc) as (_ & _ & Hv & Hn). split; assumption.
Qed.

Lemma reachable_coherent_witness :
  reachable (ModernTypeEraser_self_move_assign
               (fst (ModernTypeEraser_clone (ModernTypeEraser_ctor {| entries_ := [10; 20] |})))) /\
  coherent (ModernTypeEraser_self_move_assign
              (fst (ModernTypeEraser_clone (ModernTypeEraser_ctor {| entries_ := [10; 20] |})))).
Proof.
  split.
  - apply reach_self_move_assign, reach_clone, reach_ctor.
  - apply (reachable_coherent
             (ModernTypeEraser_self_move_assign
                (fst (ModernTypeEraser_clone
                        (ModernTypeEraser_ctor {| entries_ := [10; 20] |}))))).
    apply reach_self_move_assign, reach_clone, reach_ctor.
Defined.

Lemma invoke_keeps_constructed {T : Type} `{E : Erasable T} (v : T) (c : capability) :
  move_keeps_value T ->
  snd (invoke c (ModernTypeEraser_ctor v)) = ModernTypeEraser_ctor v.
Proof.
  intros Hkeep. destruct c; try reflexivity.
  cbn. unfold ModernTypeEraser_ctor. rewrite !Hkeep. reflexivity.
Qed.

(** For a type whose move constructor keeps the source's value, an eraser
    stays exactly as constructed under any sequence of calls of its
    capabilities, [clone] among them, and every clone taken along the way is
    equal to the eraser as constructed: clones can be taken any number of
    times and all answer as the original. *)
Theorem clone_is_repeatable {T : Type} `{E : Erasable T} (v : T) :
  move_keeps_value T ->
  forall cs : list capability,
    invoke_each cs (ModernTypeEraser_ctor v) = ModernTypeEraser_ctor v /\
    fst (ModernTypeEraser_clone (invoke_each cs (ModernTypeEraser_ctor v)))
      = ModernTypeEraser_ctor v.
Proof.
  intros Hkeep cs.
  assert (H : invoke_each cs (ModernTypeEraser_ctor v) = ModernTypeEraser_ctor v).
  { induction cs as [|c cs IH]; [reflexivity|].
    unfold invoke_each in *. cbn [fold_left].
    rewrite (invoke_keeps_constructed v c Hkeep). exact IH. }
  split; [exact H|]. rewrite H.
  cbn. unfold ModernTypeEraser_ctor. rewrite !Hkeep. reflexivity.
Qed.

Lemma clone_is_repeatable_witness :
  move_keeps_value Adder /\
  forall cs : list capability,
    invoke_each cs (ModernTypeEraser_ctor {| addend_ := 10 |})
      = ModernTypeEraser_ctor {| addend_ := 10 |} /\
    fst (ModernTypeEraser_clone (invoke_each cs (ModernTypeEraser_ctor {| addend_ := 10 |})))
      = ModernTypeEraser_ctor {| addend_ := 10 |}.
Proof.
  split; [intros a; reflexivity|].
  apply (clone_is_repeatable {| addend_ := 10 |}). intros a. reflexivity.
Defined.

(** The three erasers of the file that expose [print], [calculate] and a
    type name agree: for each value a [VariantTypeEraser] can hold, it
    answers as the [ModernTypeEraser] and the [FunctionTypeEraser] made of
    the same value do; and for every type the two [std::function]-based
    erasers answer alike. *)
Theorem erasers_agree :
  (forall (d : VariantEraser) (x : int),
     let e := variant_of d in
     VariantTypeEraser_print e = ModernTypeEraser_print (modern_of d) /\
     VariantTypeEraser_print e = FunctionTypeEraser_print (function_of d) /\
     VariantTypeEraser_calculate e x = ModernTypeEraser_calculate (modern_of d) x /\
     VariantTypeEraser_calculate e x = FunctionTypeEraser_calculate (function_of d) x /\
     VariantTypeEraser_getTypeName e = ModernTypeEraser_getTypeName (modern_of d) /\
     VariantTypeEraser_getTypeName e = FunctionTypeEraser_getTypeName (function_of d)) /\
  (forall (T : Type) (E : Erasable T) (v : T) (x : int),
     FunctionTypeEraser_print (FunctionTypeEraser_ctor v)
       = ModernTypeEraser_print (ModernTypeEraser_ctor v) /\
     FunctionTypeEraser_calculate (FunctionTypeEraser_ctor v) x
       = ModernTypeEraser_calculate (ModernTypeEraser_ctor v) x /\
     FunctionTypeEraser_getTypeName (FunctionTypeEraser_ctor v)
       = ModernTypeEraser_getTypeName (ModernTypeEraser_ctor v)).
Proof.
  split.
  - intros [c|a|m] x; repeat split.
  - intros T E v x. repeat split.
Qed.

(** ** The accessors of the type-checked erasers *)

Section AccessorFacts.

Context {type_info : Type} `{EqDecision type_info}.
Context (value_of : type_info -> Type).

(** The accessors of an [AnyTypeEraser] agree, whatever it holds:
    [getValue<T>] returns a value exactly when [get<T>] returns the pointer
    to that value, and throws [std::bad_any_cast] exactly when [get<T>]
    returns [nullptr]; [get<T>] succeeds exactly when [type()] is
    [typeid(T)], so for at most one type; [hasValue] is true exactly when
    [type()] is not [typeid(void)]. *)
Theorem AnyTypeEraser_accessors_agree (T : type_info) (e : AnyTypeEraser value_of) :
  (forall v : value_of T,
     AnyTypeEraser_getValue value_of T e = inr v <->
     AnyTypeEraser_get value_of T e = Some v) /\
  (AnyTypeEraser_getValue value_of T e = inl bad_any_cast <->
   AnyTypeEraser_get value_of T e = None) /\
  (is_Some (AnyTypeEraser_get value_of T e) <-> AnyTypeEraser_type e = Some T) /\
  (AnyTypeEraser_hasValue e = true <-> AnyTypeEraser_type e <> None) /\
  (forall T' : type_info,
     is_Some (AnyTypeEraser_get value_of T e) ->
     is_Some (AnyTypeEraser_get value_of T' e) -> T = T').
Proof.
  assert (Htype : forall U : type_info,
            is_Some (AnyTypeEraser_get value_of U e) <-> AnyTypeEraser_type e = Some U).
  { intros U. destruct e as [[[t v]|]]; unfold AnyTypeEraser_get, AnyTypeEraser_type;
      cbn [any_data_ any_cast].
    - destruct (decide (t = U)) as [<-|Hne].
      + split; [reflexivity|eauto].
      + split; [intros [? ?]; discriminate|congruence].
    - split; [intros [? ?]; discriminate|discriminate]. }
  split; [|split; [|split; [|split]]].
  - intros v. unfold AnyTypeEraser_getValue, AnyTypeEraser_get.
    destruct (any_cast value_of T (any_data_ value_of e)); split; congruence.
  - unfold AnyTypeEraser_getValue, AnyTypeEraser_get.
    destruct (any_cast value_of T (any_data_ value_of e)); split; congruence.
  - apply Htype.
  - destruct e as [[[t v]|]]; cbn; split; congruence.
  - intros T' H1 H2. apply Htype in H1. apply Htype in H2. congruence.
Qed.

(** A [BadTypeEraser] answers [get] for at most one type, with the one
    pointer it holds, and only for the type it recorded; the const overload
    answers as the other does. *)
Theorem BadTypeEraser_get_one_type (T T' : type_info) (e : BadTypeEraser type_info) :
  (forall p q : addr,
     BadTypeEraser_get T e = Some p -> BadTypeEraser_get T' e = Some q ->
     T = T' /\ p = q) /\
  (forall p : addr,
     BadTypeEraser_get T e = Some p -> type_ e = Some T /\ data_ e = Some p) /\
  BadTypeEraser_get_const T e = BadTypeEraser_get T e.
Proof.
  assert (H1 : forall U p, BadTypeEraser_get U e = Some p ->
                 type_ e = Some U /\ data_ e = Some p).
  { intros U p. unfold BadTypeEraser_get. destruct (type_ e) as [t|]; [|discriminate].
    destruct (decide (t = U)) as [->|]; [|discriminate]. auto. }
  split; [|split].
  - intros p q Hp Hq. apply H1 in Hp. apply H1 in Hq.
    destruct Hp as [Ht Hd], Hq as [Ht' Hd']. split; congruence.
  - apply H1.
  - reflexivity.
Qed.

End AccessorFacts.

(** ** The container, operation by operation *)

Lemma execute_each_fst_app (xs ys : list IOperation) :
  fst (execute_each (xs ++ ys)) = fst (execute_each xs) ++ fst (execute_each ys).
Proof.
  induction xs as [|op xs IH]; simpl.
  - reflexivity.
  - destruct (IOperation_execute op) as [op' out].
    destruct (execute_each (xs ++ ys)) as [r1 o1].
    destruct (execute_each xs) as [r2 o2].
    simpl in *. rewrite IH. reflexivity.
Qed.

Lemma execute_each_shape (ops : list IOperation) :
  length (fst (execute_each ops)) = length ops /\
  length (snd (execute_each ops)) = length ops /\
  map IOperation_dynamic_type (fst (execute_each ops))
    = map IOperation_dynamic_type ops.
Proof.
  induction ops as [|op ops (IH1 & IH2 & IH3)]; simpl.
  - repeat split.
  - destruct op as [T E o]. cbn [IOperation_execute].
    destruct (execute_ o) as [o' out].
    destruct (execute_each ops) as [r outs]. simpl in *.
    repeat split; congruence.
Qed.

(** [executeAll] keeps the container's shape: as many elements afterwards,
    each of the dynamic type it had, and one output for each.  It commutes
    with [add]: running a container to which a value was added is running
    the container and then the value.  [add] grows the size by one and
    [clear] brings it to zero, after which [executeAll] does nothing. *)
Theorem executeAll_shape_and_add
    {T : Type} `{E : Executable T} (value : T) (c : TypeErasureContainer) :
  let run := TypeErasureContainer_executeAll in
  TypeErasureContainer_size (fst (run c)) = TypeErasureContainer_size c /\
  length (snd (run c)) = TypeErasureContainer_size c /\
  map IOperation_dynamic_type (operations_ (fst (run c)))
    = map IOperation_dynamic_type (operations_ c) /\
  snd (run (TypeErasureContainer_add value c))
    = snd (run c) ++ [snd (execute_ value)] /\
  fst (run (TypeErasureContainer_add value c))
    = TypeErasureContainer_add (fst (execute_ value)) (fst (run c)) /\
  TypeErasureContainer_size (TypeErasureContainer_add value c)
    = S (TypeErasureContainer_size c) /\
  TypeErasureContainer_size (TypeErasureContainer_clear c) = 0%nat /\
  run (TypeErasureContainer_clear c) = (TypeErasureContainer_empty, []).
Proof.
  intros run. destruct (execute_each_shape (operations_ c)) as (H1 & H2 & H3).
  unfold run, TypeErasureContainer_executeAll, TypeErasureContainer_size,
    TypeErasureContainer_add.
  cbn [operations_].
  pose proof (execute_each_app (operations_ c) [OperationWrapper T E value]) as Ha.
  pose proof (execute_each_fst_app (operations_ c) [OperationWrapper T E value]) as Hb.
  cbn [execute_each IOperation_execute] in Ha, Hb.
  destruct (execute_ value) as [v' out] eqn:Hv.
  destruct (execute_each (operations_ c)) as [ops outs].
  destruct (execute_each (operations_ c ++ [OperationWrapper T E value])) as [ops' outs'].
  cbn [fst snd operations_] in *. subst ops' outs'.
  repeat split; try assumption.
  rewrite length_app. simpl. lia.
Qed.

Lemma execute_each_steady (ops : list IOperation) :
  Forall steady ops -> fst (execute_each ops) = ops.
Proof.
  induction 1 as [|op ops Hop _ IH]; simpl.
  - reflexivity.
  - unfold steady in Hop. destruct (IOperation_execute op) as [op' out].
    destruct (execute_each ops) as [r outs]. simpl in *. congruence.
Qed.

(** When no operation held changes under its own [execute], [executeAll]
    leaves the container as it was, and running it again inserts the same
    output again. *)
Theorem executeAll_steady (c : TypeErasureContainer) :
  Forall steady (operations_ c) ->
  fst (TypeErasureContainer_executeAll c) = c /\
  snd (TypeErasureContainer_executeAll (fst (TypeErasureContainer_executeAll c)))
    = snd (TypeErasureContainer_executeAll c).
Proof.
  intros Hs.
  assert (H : fst (TypeErasureContainer_executeAll c) = c).
  { unfold TypeErasureContainer_executeAll.
    pose proof (execute_each_steady _ Hs) as He.
    destruct (execute_each (operations_ c)) as [ops outs]. simpl in *.
    subst ops. destruct c; reflexivity. }
  split; [exact H|]. rewrite H. reflexivity.
Qed.

Lemma executeAll_steady_witness :
  let container :=
    TypeErasureContainer_add {| value_ := 42 |}
      (TypeErasureContainer_add {| message_ := "Hello, Type Erasure!" |}
         TypeErasureContainer_empty) in
  Forall steady (operations_ container) /\
  fst (TypeErasureContainer_executeAll container) = container /\
  snd (TypeErasureContainer_executeAll (fst (TypeErasureContainer_executeAll container)))
    = snd (TypeErasureContainer_executeAll container).
Proof.
  assert (Hs : Forall steady
            (operations_
               (TypeErasureContainer_add {| value_ := 42 |}
                  (TypeErasureContainer_add {| message_ := "Hello, Type Erasure!" |}
                     TypeErasureContainer_empty)))).
  { repeat constructor. }
  split; [exact Hs|].
  exact (executeAll_steady _ Hs).
Defined.

(** ** Copies and owners of [Drawable] models *)

(** An allocation changes no [draw] that gave an output. *)
Lemma draw_at_alloc (σ : store) (new : object) (n : nat) :
  forall (a : addr) (out : output),
    draw_at n σ a = Ok out ->
    draw_at n (<[fresh_addr σ := new]> σ) a = Ok out.
Proof.
  induction n as [|n IH]; intros a out Hd; [discriminate|].
  cbn [draw_at] in Hd |- *.
  destruct (σ !! a) as [o|] eqn:Ha; [|discriminate].
  rewrite (lookup_alloc σ a o new Ha).
  destruct o as [T D v|d|T D obj|target]; try exact Hd.
  - destruct (pImpl d) as [p|]; [|discriminate]. apply IH, Hd.
  - apply IH, Hd.
Qed.

(** When a [Drawable] owns a model and draws an output, the copy
    constructor succeeds; the copy owns a model of its own, at another
    address, and draws that same output; and the original still does.
    Nothing that was in the store is changed.  (The model is the copy's own;
    when it holds a reference, the object referred to is the original's.) *)
Theorem Drawable_copy_draws_the_same
    (σ : store) (d : Drawable) (p : addr) (m : object) (fuel : nat) (out : output) :
  pImpl d = Some p ->
  σ !! p = Some m ->
  is_Model m = true ->
  Drawable_draw fuel σ d = Ok out ->
  exists (q : addr) (σ' : store),
    Drawable_copy d σ = Ok ({| pImpl := Some q |}, σ') /\
    q <> p /\
    σ !! q = None /\
    (forall (a : addr) (o : object), σ !! a = Some o -> σ' !! a = Some o) /\
    Drawable_draw fuel σ' {| pImpl := Some q |} = Ok out /\
    Drawable_draw fuel σ' d = Ok out.
Proof.
  intros Hd Hp Hm Hdraw.
  exists (fresh_addr σ), (<[fresh_addr σ := m]> σ).
  assert (Hq : fresh_addr σ <> p).
  { intros E. rewrite <- E, fresh_addr_lookup in Hp. discriminate. }
  unfold Drawable_draw in *. rewrite Hd in *. cbn [pImpl].
  split; [|split; [exact Hq|split; [apply fresh_addr_lookup|split; [|split]]]].
  - unfold Drawable_copy, bind, Concept_clone. rewrite Hd, Hp.
    destruct m as [T D v|d'|T D obj|target]; try discriminate; reflexivity.
  - intros a o Ha. apply lookup_alloc, Ha.
  - destruct fuel as [|n]; [discriminate|].
    cbn [draw_at] in Hdraw |- *. rewrite Hp in Hdraw. rewrite lookup_insert_eq.
    destruct m as [T D v|d'|T D obj|target]; try discriminate.
    + exact Hdraw.
    + apply draw_at_alloc, Hdraw.
  - apply draw_at_alloc, Hdraw.
Qed.

Lemma Drawable_copy_draws_the_same_witness :
  let σ : store :=
    <[1%nat := ModelRef 0%nat]>
      (<[0%nat := Plain Circle _ {| Circle_radius := 10 |}]> ∅) in
  let d := {| pImpl := Some 1%nat |} in
  exists (q : addr) (σ' : store),
    Drawable_copy d σ = Ok ({| pImpl := Some q |}, σ') /\
    q <> 1%nat /\
    σ !! q = None /\
    (forall (a : addr) (o : object), σ !! a = Some o -> σ' !! a = Some o) /\
    Drawable_draw 2 σ' {| pImpl := Some q |}
      = Ok (Circle_draw {| Circle_radius := 10 |}) /\
    Drawable_draw 2 σ' d = Ok (Circle_draw {| Circle_radius := 10 |}).
Proof.
  exact (Drawable_copy_draws_the_same
           (<[1%nat := ModelRef 0%nat]>
              (<[0%nat := Plain Circle _ {| Circle_radius := 10 |}]> ∅))
           {| pImpl := Some 1%nat |} 1%nat (ModelRef 0%nat) 2
           (Circle_draw {| Circle_radius := 10 |})
           eq_refl eq_refl eq_refl eq_refl).
Defined.

Lemma owns_insert (σ : store) (a x p : addr) (o : object) :
  owns (<[a := o]> σ) x p <->
  (x = a /\ exists d : Drawable, o = Wrapped d /\ pImpl d = Some p) \/
  (x <> a /\ owns σ x p).
Proof.
  unfold owns. destruct (decide (x = a)) as [->|Hne].
  - rewrite lookup_insert_eq. split.
    + intros (d & [= ->] & Hp). left. eauto.
    + intros [(_ & d & -> & Hp)|(Hn & _)]; [eauto|congruence].
  - rewrite lookup_insert_ne by congruence. split.
    + intros H. right. auto.
    + intros [(E & _)|(_ & H)]; [congruence|exact H].
Qed.

(** A named object that is no [Drawable] owns nothing and is owned by
    nothing. *)
Lemma well_owned_alloc (σ : store) (o : object) :
  well_owned σ ->
  (forall d, o <> Wrapped d) ->
  well_owned (<[fresh_addr σ := o]> σ).
Proof.
  intros [H1 H2] Ho. split.
  - intros x p Hx. apply owns_insert in Hx.
    destruct Hx as [(_ & d & -> & _)|(_ & Hx)]; [destruct (Ho d eq_refl)|].
    destruct (H1 x p Hx) as (m & Hm & Hmodel).
    exists m. split; [apply lookup_alloc, Hm|exact Hmodel].
  - intros x y p Hx Hy. apply owns_insert in Hx, Hy.
    destruct Hx as [(_ & d & -> & _)|(_ & Hx)]; [destruct (Ho d eq_refl)|].
    destruct Hy as [(_ & d & -> & _)|(_ & Hy)]; [destruct (Ho d eq_refl)|].
    eapply H2; eassumption.
Qed.

(** A new [Drawable] that owns a model just made. *)
Lemma well_owned_new_owner (σ : store) (m : object) :
  well_owned σ ->
  is_Model m = true ->
  let σ1 : store := <[fresh_addr σ := m]> σ in
  well_owned (<[fresh_addr σ1 := Wrapped {| pImpl := Some (fresh_addr σ) |}]> σ1).
Proof.
  intros Hw Hm σ1.
  assert (Hw1 : well_owned σ1).
  { apply well_owned_alloc; [exact Hw|]. intros d ->. discriminate. }
  assert (Hp1 : σ1 !! fresh_addr σ = Some m) by apply lookup_insert_eq.
  assert (Hnone : forall x, ~ owns σ1 x (fresh_addr σ)).
  { intros x Hx. apply owns_insert in Hx.
    destruct Hx as [(_ & d & -> & _)|(_ & Hx)]; [discriminate|].
    destruct Hw as [H1 _]. destruct (H1 x _ Hx) as (m' & Hm' & _).
    rewrite fresh_addr_lookup in Hm'. discriminate. }
  destruct Hw1 as [H1 H2]. split.
  - intros x p Hx. apply owns_insert in Hx.
    destruct Hx as [(_ & d & [= <-] & [= <-])|(_ & Hx)].
    + exists m. split; [apply lookup_alloc, Hp1|exact Hm].
    + destruct (H1 x p Hx) as (m' & Hm' & Hmodel).
      exists m'. split; [apply lookup_alloc, Hm'|exact Hmodel].
  - intros x y p Hx Hy. apply owns_insert in Hx, Hy.
    destruct Hx as [(-> & d & [= <-] & [= <-])|(_ & Hx)];
      destruct Hy as [(-> & d' & [= <-] & E)|(_ & Hy)].
    + reflexivity.
    + destruct (Hnone y Hy).
    + cbn in E. injection E as <-. destruct (Hnone x Hx).
    + eapply H2; eassumption.
Qed.

Lemma well_owned_moved (σ : store) (x : addr) (d : Drawable) :
  well_owned σ ->
  σ !! x = Some (Wrapped d) ->
  let σ1 : store := <[x := Wrapped {| pImpl := None |}]> σ in
  well_owned (<[fresh_addr σ1 := Wrapped {| pImpl := pImpl d |}]> σ1).
Proof.
  intros [H1 H2] Hx σ1.
  assert (Hold : forall z p, owns σ1 z p -> z <> x /\ owns σ z p).
  { intros z p Hz. apply owns_insert in Hz.
    destruct Hz as [(_ & d' & [= <-] & E)|(Hne & Hz)]; [discriminate|auto]. }
  assert (Hkeep : forall a o, σ !! a = Some o -> is_Model o = true ->
                    <[fresh_addr σ1 := Wrapped {| pImpl := pImpl d |}]> σ1 !! a = Some o).
  { intros a o Ha Ho. apply lookup_alloc. unfold σ1.
    rewrite lookup_insert_ne; [exact Ha|].
    intros <-. rewrite Hx in Ha. injection Ha as <-. discriminate. }
  split.
  - intros z p Hz. apply owns_insert in Hz.
    destruct Hz as [(_ & d' & [= <-] & E)|(_ & Hz)].
    + cbn in E. destruct (H1 x p) as (m & Hm & Hmodel); [exists d; auto|].
      exists m. split; [apply Hkeep; assumption|exact Hmodel].
    + destruct (Hold z p Hz) as [_ Hz'].
      destruct (H1 z p Hz') as (m & Hm & Hmodel).
      exists m. split; [apply Hkeep; assumption|exact Hmodel].
  - intros z1 z2 p Hz1 Hz2. apply owns_insert in Hz1, Hz2.
    destruct Hz1 as [(-> & d1 & [= <-] & E1)|(_ & Hz1)];
      destruct Hz2 as [(-> & d2 & [= <-] & E2)|(_ & Hz2)].
    + reflexivity.
    + cbn in E1. destruct (Hold z2 p Hz2) as [Hne Hz2'].
      destruct Hne. apply (H2 z2 x p Hz2'). exists d. auto.
    + cbn in E2. destruct (Hold z1 p Hz1) as [Hne Hz1'].
      destruct Hne. apply (H2 z1 x p Hz1'). exists d. auto.
    + destruct (Hold z1 p Hz1) as [_ Hz1']. destruct (Hold z2 p Hz2) as [_ Hz2'].
      eapply H2; eassumption.
Qed.

Lemma execute_declaration_well_owned (s : declaration) (σ σ' : store) (a : addr) :
  well_owned σ -> execute_declaration s σ = Ok (a, σ') -> well_owned σ'.
Proof.
  intros Hw Hrun. destruct s as [v|v|obj|x|x]; cbn in Hrun.
  - injection Hrun as _ <-. apply well_owned_alloc; [exact Hw|]. intros d. discriminate.
  - injection Hrun as _ <-. apply (well_owned_new_owner σ _ Hw). reflexivity.
  - injection Hrun as _ <-. apply (well_owned_new_owner σ _ Hw). reflexivity.
  - unfold declare_copy in Hrun.
    destruct (σ !! x) as [[T D v|d|T D obj|target]|]; try discriminate.
    unfold bind, Drawable_copy in Hrun.
    destruct (pImpl d) as [p|]; [|discriminate].
    unfold bind, Concept_clone in Hrun.
    destruct (σ !! p) as [[T D v|d'|T D obj|target]|]; try discriminate;
      cbn in Hrun; injection Hrun as _ <-;
      apply (well_owned_new_owner σ _ Hw); reflexivity.
  - unfold declare_moved, bind, Drawable_move_from in Hrun.
    destruct (σ !! x) as [[T D v|d|T D obj|target]|] eqn:Hx; try discriminate.
    cbn in Hrun. injection Hrun as _ <-.
    apply (well_owned_moved σ x d Hw Hx).
Qed.

(** No model ever has two owners.  In a store built from nothing by
    declarations (concrete objects, [Drawable]s made from temporaries and
    from named objects, copies, moves), every non-null [pImpl] of a named
    [Drawable] points to a model that is there, and no two named [Drawable]s
    point to the same model; each declaration that runs keeps it so. *)
Theorem ownership_is_unique :
  well_owned ∅ /\
  (forall (s : declaration) (σ σ' : store) (a : addr),
     well_owned σ -> execute_declaration s σ = Ok (a, σ') -> well_owned σ') /\
  (forall (body : list declaration) (σ σ' : store) (names : list addr),
     well_owned σ -> execute_declarations body σ = Ok (names, σ') ->
     well_owned σ' /\ length names = length body).
Proof.
  split; [|split].
  - split.
    + intros x p (d & Hx & _). rewrite lookup_empty in Hx. discriminate.
    + intros x y p (d & Hx & _). rewrite lookup_empty in Hx. discriminate.
  - exact execute_declaration_well_owned.
  - intros body. induction body as [|s body IH]; intros σ σ' names Hw Hrun.
    + injection Hrun as <- <-. split; [exact Hw|reflexivity].
    + cbn [execute_declarations] in Hrun. unfold bind at 1 in Hrun.
      destruct (execute_declaration s σ) as [[a σ1]| |] eqn:Hs; try discriminate.
      unfold bind at 1 in Hrun.
      destruct (execute_declarations body σ1) as [[rest σ2]| |] eqn:Hb;
        try discriminate.
      injection Hrun as <- <-.
      destruct (IH σ1 σ2 rest (execute_declaration_well_owned s σ σ1 a Hw Hs) Hb)
        as [Hw2 Hlen].
      split; [exact Hw2|]. simpl. congruence.
Qed.

(** The declarations of lines 259-261 of [main] run from the empty store,
    and give the three objects their addresses. *)
Example declarations_of_main :
  outcome (execute_declarations
             [DeclareOfRvalue (Shape Circle _ {| Circle_radius := 10 |});
              DeclareOfLvalue 1%nat;
              DeclareMoved 1%nat] ∅)
  = Ok [1%nat; 3%nat; 4%nat].
Proof. vm_compute. reflexivity. Qed.

(** ** Calls through a [Callable] *)

Lemma fresh_callable_lookup (σ : callables) : σ !! fresh (dom σ) = None.
Proof. apply (not_elem_of_dom (D := gset addr)), is_fresh. Qed.

(** In [src/cpp/dp_type_erasure.cpp], a [Callable] made from a named
    callable holds a reference to it, and so does every copy: a call through
    the wrapper or through the copy is a call on the named callable, which
    returns its result and leaves the named callable in the state its own
    call operator leaves it in. *)
Theorem Callable_call_reaches_the_callable
    (F : Type) (Inv : Invocable F) (v : F) (f : addr) (σ : callables) (x : int) :
  σ !! f = Some (Lvalue F Inv v) ->
  exists (a b : Callable) (σ1 σ2 : callables),
    Callable_of_lvalue f σ = Ok (a, σ1) /\
    Callable_copy a σ1 = Ok (b, σ2) /\
    Callable_pImpl a <> Callable_pImpl b /\
    Callable_call a x σ2
      = Ok (snd (invoke_ v x), <[f := Lvalue F Inv (fst (invoke_ v x))]> σ2) /\
    Callable_call b x σ2
      = Ok (snd (invoke_ v x), <[f := Lvalue F Inv (fst (invoke_ v x))]> σ2).
Proof.
  intros Hf.
  set (p := fresh (dom σ)).
  set (σ1 := <[p := CallableModelRef f]> σ).
  set (q := fresh (dom σ1)).
  set (σ2 := <[q := CallableModelRef f]> σ1).
  assert (Hp : σ !! p = None) by apply fresh_callable_lookup.
  assert (Hq : σ1 !! q = None) by apply fresh_callable_lookup.
  assert (Hp1 : σ1 !! p = Some (CallableModelRef f)) by apply lookup_insert_eq.
  assert (Hpq : p <> q) by (intros E; rewrite E in Hp1; congruence).
  assert (Hfp : f <> p) by (intros E; rewrite E in Hf; congruence).
  assert (Hf1 : σ1 !! f = Some (Lvalue F Inv v)).
  { unfold σ1. rewrite lookup_insert_ne by congruence. exact Hf. }
  assert (Hfq : f <> q) by (intros E; rewrite E in Hf1; congruence).
  assert (Hf2 : σ2 !! f = Some (Lvalue F Inv v)).
  { unfold σ2. rewrite lookup_insert_ne by congruence. exact Hf1. }
  assert (Hp2 : σ2 !! p = Some (CallableModelRef f)).
  { unfold σ2. rewrite lookup_insert_ne by congruence. exact Hp1. }
  assert (Hq2 : σ2 !! q = Some (CallableModelRef f)) by apply lookup_insert_eq.
  exists {| Callable_pImpl := Some p |}, {| Callable_pImpl := Some q |}, σ1, σ2.
  split; [reflexivity|]. split.
  { unfold Callable_copy, bind, CallableConcept_clone. cbn [Callable_pImpl].
    rewrite Hp1. reflexivity. }
  split; [cbn; congruence|].
  unfold Callable_call. cbn [Callable_pImpl]. rewrite Hp2, Hq2, Hf2.
  destruct (invoke_ v x) as [v' r]. split; reflexivity.
Qed.

Lemma Callable_call_reaches_the_callable_witness :
  let counter := Lvalue counter_lambda _ {| counter_n := 0 |} in
  let σ : callables := <[0%nat := counter]> ∅ in
  σ !! 0%nat = Some counter /\
  exists (a b : Callable) (σ1 σ2 : callables),
    Callable_of_lvalue 0%nat σ = Ok (a, σ1) /\
    Callable_copy a σ1 = Ok (b, σ2) /\
    Callable_pImpl a <> Callable_pImpl b /\
    Callable_call a 5 σ2
      = Ok (snd (invoke_ {| counter_n := 0 |} 5),
            <[0%nat := Lvalue counter_lambda _
                         (fst (invoke_ {| counter_n := 0 |} 5))]> σ2) /\
    Callable_call b 5 σ2
      = Ok (snd (invoke_ {| counter_n := 0 |} 5),
            <[0%nat := Lvalue counter_lambda _
                         (fst (invoke_ {| counter_n := 0 |} 5))]> σ2).
Proof.
  cbv zeta. split.
  - apply lookup_insert_eq.
  - apply (Callable_call_reaches_the_callable counter_lambda _
             {| counter_n := 0 |} 0%nat (<[0%nat := _]> ∅) 5).
    apply lookup_insert_eq.
Defined.

(** ** The two wrappers of an executable value *)

Lemma execute_times_wrappers {T : Type} `{E : Executable T} (n : nat) :
  forall v : T,
    execute_times IOperation_execute n (OperationWrapper T E v)
      = (OperationWrapper T E (fst (execute_times execute_ n v)),
         snd (execute_times execute_ n v)) /\
    execute_times ConceptBasedEraser_execute n (ConceptBasedEraser_ctor v)
      = (ConceptBasedEraser_ctor (fst (execute_times execute_ n v)),
         snd (execute_times execute_ n v)).
Proof.
  induction n as [|n IH]; intros v.
  - split; reflexivity.
  - cbn [execute_times IOperation_execute].
    unfold ConceptBasedEraser_execute at 1. cbn [ConceptBasedEraser_ctor concept_value_].
    destruct (execute_ v) as [v' out].
    destruct (IH v') as [H1 H2].
    change {| concept_value_ := v' |} with (ConceptBasedEraser_ctor v').
    rewrite H1, H2.
    destruct (execute_times execute_ n v') as [v'' outs]. split; reflexivity.
Qed.

(** An [OperationWrapper] and a [ConceptBasedEraser] made of the same value
    stay in step with the value itself: after any number of [execute]
    calls, each has inserted what the value would have, holds the value as
    those calls left it, and reports the type that value reports. *)
Theorem wrappers_stay_in_step {T : Type} `{E : Executable T} (n : nat) (v : T) :
  let direct := execute_times execute_ n v in
  let wrapped := execute_times IOperation_execute n (OperationWrapper T E v) in
  let erased := execute_times ConceptBasedEraser_execute n (ConceptBasedEraser_ctor v) in
  snd wrapped = snd direct /\
  snd erased = snd direct /\
  fst wrapped = OperationWrapper T E (fst direct) /\
  ConceptBasedEraser_getValue (fst erased) = fst direct /\
  IOperation_getType (fst wrapped) = getType_ (fst direct) /\
  ConceptBasedEraser_getType (fst erased) = getType_ (fst direct) /\
  IOperation_clone (fst wrapped) = fst wrapped.
Proof.
  intros direct wrapped erased.
  destruct (execute_times_wrappers n v) as [H1 H2].
  subst direct wrapped erased. rewrite H1, H2. repeat split.
Qed.

(** ** Copy assignment of a [Drawable] *)

(** Copy assignment clones first and releases afterwards.  When the source
    and the target each own a model, the target ends up owning a new model
    equal to the source's, at an address that was free; the model the target
    owned is gone; every other object is as it was.  This holds when the
    target and the source are the same object too: the clone is taken before
    the old model is released, and a target that held a value still draws
    it. *)
Theorem Drawable_copy_assign_releases_and_clones
    (σ : store) (this other : Drawable) (p old : addr) (m m_old : object) :
  pImpl other = Some p ->
  pImpl this = Some old ->
  σ !! p = Some m ->
  σ !! old = Some m_old ->
  is_Model m = true ->
  exists (q : addr) (σ' : store),
    Drawable_copy_assign this other σ = Ok ({| pImpl := Some q |}, σ') /\
    σ !! q = None /\
    σ' !! q = Some m /\
    σ' !! old = None /\
    (forall a : addr, a <> q -> a <> old -> σ' !! a = σ !! a) /\
    (forall (T : Type) (D : Draw T) (obj : T) (fuel : nat),
       m = Model T D obj ->
       Drawable_draw (S fuel) σ' {| pImpl := Some q |} = Ok (draw_ obj)).
Proof.
  intros Hother Hthis Hp Hold Hm.
  set (q := fresh_addr σ).
  assert (Hq : σ !! q = None) by apply fresh_addr_lookup.
  assert (Hne : q <> old) by (intros E; rewrite E, Hold in Hq; discriminate).
  exists q, (delete old (<[q := m]> σ)).
  split; [|split; [exact Hq|split; [|split; [|split]]]].
  - unfold Drawable_copy_assign, bind, Concept_clone. rewrite Hother, Hp, Hthis.
    destruct m as [T D v|d'|T D obj|target]; try discriminate; reflexivity.
  - rewrite lookup_delete_ne by congruence. apply lookup_insert_eq.
  - apply lookup_delete_eq.
  - intros a Haq Hao. rewrite lookup_delete_ne by congruence.
    apply lookup_insert_ne. congruence.
  - intros T D obj fuel ->. apply Drawable_draw_Model.
    rewrite lookup_delete_ne by congruence. apply lookup_insert_eq.
Qed.

(** The witness is a self-assignment [a = a] of a wrapper of a named
    circle. *)
Lemma Drawable_copy_assign_releases_and_clones_witness :
  let σ : store :=
    <[1%nat := ModelRef 0%nat]>
      (<[0%nat := Plain Circle _ {| Circle_radius := 10 |}]> ∅) in
  let a := {| pImpl := Some 1%nat |} in
  exists (q : addr) (σ' : store),
    Drawable_copy_assign a a σ = Ok ({| pImpl := Some q |}, σ') /\
    σ !! q = None /\
    σ' !! q = Some (ModelRef 0%nat) /\
    σ' !! 1%nat = None /\
    (forall a : addr, a <> q -> a <> 1%nat -> σ' !! a = σ !! a) /\
    (forall (T : Type) (D : Draw T) (obj : T) (fuel : nat),
       ModelRef 0%nat = Model T D obj ->
       Drawable_draw (S fuel) σ' {| pImpl := Some q |} = Ok (draw_ obj)).
Proof.
  exact (Drawable_copy_assign_releases_and_clones
           (<[1%nat := ModelRef 0%nat]>
              (<[0%nat := Plain Circle _ {| Circle_radius := 10 |}]> ∅))
           {| pImpl := Some 1%nat |} {| pImpl := Some 1%nat |}
           1%nat 1%nat (ModelRef 0%nat) (ModelRef 0%nat)
           eq_refl eq_refl eq_refl eq_refl eq_refl).
Defined.

(** ** Serializing a [User] *)

Lemma append_assoc (a b c : string) : a +:+ (b +:+ c) = (a +:+ b) +:+ c.
Proof.
  induction a as [|x a IH]; [reflexivity|].
  change (String x (a +:+ (b +:+ c)) = String x ((a +:+ b) +:+ c)).
  f_equal. exact IH.
Qed.

Lemma free_of_append (c : ascii) (a b : string) :
  free_of c a -> free_of c b -> free_of c (a +:+ b).
Proof.
  induction a as [|x a IH]; simpl; [auto|]. intros [Hx Ha] Hb. split; auto.
Qed.

Lemma split_last_free (c : ascii) (s : string) :
  free_of c s -> split_last c s = None.
Proof.
  induction s as [|a s IH]; simpl; [reflexivity|]. intros [Ha Hs].
  rewrite (IH Hs). rewrite decide_False by exact Ha. reflexivity.
Qed.

(** A string that ends in the character followed by text without it is cut
    there. *)
Lemma split_last_append (c : ascii) (before after : string) :
  free_of c after ->
  split_last c (before +:+ String c after) = Some (before, after).
Proof.
  intros Hfree. induction before as [|a before IH]; simpl.
  - rewrite (split_last_free c after Hfree).
    rewrite decide_True by reflexivity. reflexivity.
  - rewrite IH. reflexivity.
Qed.

Lemma pretty_N_char_not (c : ascii) (y : N) :
  (forall d : N, (d < 10)%N -> pretty_N_char d <> c) -> pretty_N_char (y `mod` 10) <> c.
Proof. intros H. apply H. apply N.mod_lt. discriminate. Qed.

Lemma pretty_N_go_free (c : ascii) (x : N) :
  (forall d : N, (d < 10)%N -> pretty_N_char d <> c) ->
  forall s : string, free_of c s -> free_of c (pretty_N_go x s).
Proof.
  intros Hc. induction (N.lt_wf_0 x) as [x _ IH]. intros s Hs.
  destruct (decide (x = 0)%N) as [->|Hx].
  - rewrite pretty_N_go_0. exact Hs.
  - rewrite pretty_N_go_step by lia. apply IH.
    + apply N.div_lt; lia.
    + split; [apply pretty_N_char_not, Hc|exact Hs].
Qed.

(** A numeral has digits and at most a minus sign. *)
Lemma to_string_free (c : ascii) (z : int) :
  (forall d : N, (d < 10)%N -> pretty_N_char d <> c) ->
  c <> "-"%char ->
  free_of c (to_string z).
Proof.
  intros Hc Hminus. unfold to_string, pretty, pretty_Z.
  assert (Hpos : forall p : positive, free_of c (pretty p)).
  { intros p. unfold pretty, pretty_positive, pretty, pretty_N.
    rewrite decide_False by discriminate.
    apply pretty_N_go_free; [exact Hc|exact I]. }
  destruct z as [|p|p].
  - simpl. split; [|exact I]. apply (Hc 0%N). reflexivity.
  - apply Hpos.
  - simpl. split; [congruence|apply Hpos].
Qed.

Lemma digit_not_quote (d : N) : (d < 10)%N -> pretty_N_char d <> "'"%char.
Proof. intros _. unfold pretty_N_char. repeat case_match; discriminate. Qed.

(** [User::serialize] loses nothing: two users with the same serialized
    string have the same name and the same age, whatever characters the
    name has (quotes, commas and braces included). *)
Theorem User_serialize_inj (u1 u2 : User) :
  User_serialize u1 = User_serialize u2 -> u1 = u2.
Proof.
  destruct u1 as [n1 a1], u2 as [n2 a2]. unfold User_serialize. cbn [User_name User_age].
  intros Heq.
  assert (Hshape : forall (n : string) (a : int),
            "User{name='" +:+ n +:+ "', age=" +:+ to_string a +:+ "}"
            = ("User{name='" +:+ n)
                +:+ String "'" (", age=" +:+ (to_string a +:+ String "}" ""))).
  { intros n a. rewrite <- append_assoc. reflexivity. }
  assert (Hfree : forall a : int,
            free_of "'" (", age=" +:+ (to_string a +:+ String "}" ""))).
  { intros a. apply (free_of_append "'" ", age=").
    - cbn. repeat split; discriminate.
    - apply free_of_append.
      + apply to_string_free; [exact digit_not_quote|discriminate].
      + cbn. split; [discriminate|exact I]. }
  rewrite !Hshape in Heq.
  apply (f_equal (split_last "'")) in Heq.
  rewrite !split_last_append in Heq by apply Hfree.
  assert (Hn : "User{name='" +:+ n1 = "User{name='" +:+ n2) by congruence.
  assert (Ha : ", age=" +:+ (to_string a1 +:+ String "}" "")
               = ", age=" +:+ (to_string a2 +:+ String "}" "")) by congruence.
  clear Heq.
  apply (inj (String.append "User{name='")) in Hn.
  apply (inj (String.append ", age=")) in Ha.
  apply (f_equal (split_last "}")) in Ha.
  rewrite !split_last_append in Ha by exact I.
  assert (Hs : to_string a1 = to_string a2) by congruence.
  apply (inj pretty) in Hs. subst. reflexivity.
Qed.

Lemma User_serialize_inj_witness :
  let john := {| User_name := "John Doe"; User_age := 30 |} in
  User_serialize john = "User{name='John Doe', age=30}" /\ john = john.
Proof.
  split; [reflexivity|].
  apply (User_serialize_inj {| User_name := "John Doe"; User_age := 30 |}
           {| User_name := "John Doe"; User_age := 30 |}).
  reflexivity.
Defined.
